(** * The STM32 system clock of the UAVCAN driver

    A shallow embedding of
    [libuavcan_drivers/stm32/driver/src/uc_stm32_clock.cpp]: the 64-bit
    monotonic and UTC accumulators driven by the overflow interrupt of a
    16-bit hardware timer, the overflow-safe sampler, and the UTC adjustment
    algorithm (speed trim plus direct offset).

    Fixed-width C++ integers are [Z] with the wrap-around written out; the
    file-scope variables of namespace [clock] are a record; the timer
    peripheral is a second record; the functions of the source are written
    in a small state monad over the pair of both. *)

From Stdlib Require Import ZArith List Bool Lia Sorted.
Import ListNotations.
Open Scope Z_scope.

Set Implicit Arguments.

(** ** Fixed-width integers *)

Module Int.

Definition u32 (x : Z) : Z := x mod 2 ^ 32.
Definition u64 (x : Z) : Z := x mod 2 ^ 64.
(** Two's complement reduction to a signed range. *)
Definition s32 (x : Z) : Z := (x + 2 ^ 31) mod 2 ^ 32 - 2 ^ 31.
Definition s64 (x : Z) : Z := (x + 2 ^ 63) mod 2 ^ 64 - 2 ^ 63.

Definition in_s64 (x : Z) : Prop := - 2 ^ 63 <= x < 2 ^ 63.

Definition in_s64b (x : Z) : bool := (- 2 ^ 63 <=? x) && (x <? 2 ^ 63).

End Int.

(** ** Time types of the libuavcan core *)

(** Modelled from the spec: [uavcan::UtcDuration] is declared in the
    libuavcan core headers, which are not part of this directory.  The spec
    describes it as a signed microsecond duration; it is a signed 64-bit
    count of microseconds, [toMSec] yields whole milliseconds by integer
    division, and [getAbs] negates a negative count (in 64-bit two's
    complement). *)
Module UtcDuration.

Record t : Type := fromUSec { toUSec : Z }.

Definition isZero (d : t) : bool := toUSec d =? 0.
Definition isPositive (d : t) : bool := 0 <? toUSec d.
Definition getAbs (d : t) : t :=
  fromUSec (if toUSec d <? 0 then Int.s64 (- toUSec d) else toUSec d).
Definition toMSec (d : t) : Z := Z.quot (toUSec d) 1000.

End UtcDuration.

(** Modelled from the spec: [uavcan::UtcTime] and [uavcan::MonotonicTime]
    (libuavcan core) wrap an unsigned 64-bit count of microseconds; the
    default-constructed value is the zero (epoch) timestamp. *)
Module UtcTime.
Record t : Type := fromUSec { toUSec : Z }.
Definition zero : t := fromUSec 0.
End UtcTime.

Module MonotonicTime.
Record t : Type := fromUSec { toUSec : Z }.
End MonotonicTime.

(** ** Constants of namespace [clock] *)

Definition USecPerOverflow : Z := 65536.
Definition MaxUtcSpeedCorrection : Z := 500.   (* x / 65536 *)

(** ** The timer peripheral *)

(** Modelled from the spec: the hardware counter interface.  A free-running
    counter that counts microseconds, wraps to zero after reaching its
    auto-reload value and raises the update flag [UIF] of its status
    register once per wrap.  The register bit masks come from the vendor
    header [stm32f4xx.h]. *)
Module TIM.

Record TypeDef : Type := mk {
  CR1 : Z; DIER : Z; SR : Z; CNT : Z; PSC : Z; ARR : Z
}.

Definition CR1_CEN : Z := 1.
Definition CR1_URS : Z := 4.
Definition DIER_UIE : Z := 1.
Definition SR_UIF : Z := 1.
Definition EGR_UG : Z := 1.

(** Registers after the RCC reset pulse of [init]. *)
Definition reset : TypeDef := mk 0 0 0 0 0 65535.

Definition set_CR1 (v : Z) (r : TypeDef) : TypeDef :=
  mk v (DIER r) (SR r) (CNT r) (PSC r) (ARR r).
Definition set_DIER (v : Z) (r : TypeDef) : TypeDef :=
  mk (CR1 r) v (SR r) (CNT r) (PSC r) (ARR r).
Definition set_PSC (v : Z) (r : TypeDef) : TypeDef :=
  mk (CR1 r) (DIER r) (SR r) (CNT r) v (ARR r).
Definition set_ARR (v : Z) (r : TypeDef) : TypeDef :=
  mk (CR1 r) (DIER r) (SR r) (CNT r) (PSC r) v.
(** The status flags are cleared by writing zero; writing one to a flag
    leaves it as it is. *)
Definition write_SR (v : Z) (r : TypeDef) : TypeDef :=
  mk (CR1 r) (DIER r) (Z.land (SR r) v) (CNT r) (PSC r) (ARR r).
(** Writing [UG] to the event generation register reloads the counter;
    with [URS] set in [CR1] this does not raise [UIF]. *)
Definition write_EGR (v : Z) (r : TypeDef) : TypeDef :=
  if Z.land v EGR_UG =? 0 then r
  else mk (CR1 r) (DIER r)
          (if Z.land (CR1 r) CR1_URS =? 0 then Z.lor (SR r) SR_UIF else SR r)
          0 (PSC r) (ARR r).

Definition uif (r : TypeDef) : bool := negb (Z.land (SR r) SR_UIF =? 0).
Definition uie (r : TypeDef) : bool := negb (Z.land (DIER r) DIER_UIE =? 0).
Definition cen (r : TypeDef) : bool := negb (Z.land (CR1 r) CR1_CEN =? 0).

(** One microsecond of timer clock. *)
Definition tick (r : TypeDef) : TypeDef :=
  if cen r then
    if CNT r =? ARR r
    then mk (CR1 r) (DIER r) (Z.lor (SR r) SR_UIF) 0 (PSC r) (ARR r)
    else mk (CR1 r) (DIER r) (SR r) (CNT r + 1) (PSC r) (ARR r)
  else r.

(** The overflow handler is invoked once per wrap: the counter does not
    wrap a second time while the flag of the previous wrap is still
    pending. *)
Definition tick_allowed (r : TypeDef) : bool :=
  negb (cen r && (CNT r =? ARR r) && uif r).

Fixpoint elapse (n : nat) (r : TypeDef) : TypeDef :=
  match n with
  | O => r
  | S n' => elapse n' (tick r)
  end.

Fixpoint elapse_allowed (n : nat) (r : TypeDef) : bool :=
  match n with
  | O => true
  | S n' => tick_allowed r && elapse_allowed n' (tick r)
  end.

(** The counter stays within the period the driver programs. *)
Definition ok (r : TypeDef) : Prop := ARR r = 65535 /\ 0 <= CNT r <= 65535.

(** The time the timer stands for on top of an accumulator value [v]. *)
Definition now (v : Z) (r : TypeDef) : Z :=
  v + (if uif r then USecPerOverflow else 0) + CNT r.

End TIM.

(** ** The variables of namespace [clock] *)

Record Clock : Type := mkClock {
  initialized : bool;
  utc_set : bool;
  utc_jump_cnt : Z;                        (* uint32_t *)
  utc_correction_usec_per_overflow : Z;    (* int32_t *)
  time_mono : Z;                           (* uint64_t *)
  time_utc : Z                             (* uint64_t *)
}.

(** [STM32_TIMCLK1] of [chip.h]. *)
Definition TIMX_INPUT_CLOCK : Z := 84000000.

Definition clock_zero : Clock := mkClock false false 0 0 0 0.

Record Machine : Type := mkMachine { clk : Clock; tim : TIM.TypeDef }.

Definition power_on : Machine := mkMachine clock_zero TIM.reset.

(** ** A state monad over the machine *)

Definition M (A : Type) : Type := Machine -> A * Machine.

Definition ret {A} (a : A) : M A := fun m => (a, m).
Definition bind {A B} (c : M A) (k : A -> M B) : M B :=
  fun m => let (a, m') := c m in k a m'.

Declare Scope clock_scope.
Delimit Scope clock_scope with clock.
Notation "x <- c ;; k" := (bind c (fun x => k))
  (at level 61, c at next level, right associativity) : clock_scope.
Notation "c ;; k" := (bind c (fun _ => k))
  (at level 61, right associativity) : clock_scope.
Open Scope clock_scope.

Definition load {A} (f : Clock -> A) : M A := fun m => (f (clk m), m).
Definition store (f : Clock -> Clock) : M unit :=
  fun m => (tt, mkMachine (f (clk m)) (tim m)).
Definition reg {A} (f : TIM.TypeDef -> A) : M A := fun m => (f (tim m), m).
Definition mmio (f : TIM.TypeDef -> TIM.TypeDef) : M unit :=
  fun m => (tt, mkMachine (clk m) (f (tim m))).

(** Timer clock cycles that go by between two accesses of the program. *)
Definition elapse (n : nat) : M unit := mmio (TIM.elapse n).

(** [assert] in a release build ([NDEBUG]): the condition is not
    evaluated. *)
Definition assert (_ : bool) : M unit := ret tt.

Definition set_initialized (v : bool) (c : Clock) : Clock :=
  mkClock v (utc_set c) (utc_jump_cnt c) (utc_correction_usec_per_overflow c)
          (time_mono c) (time_utc c).
Definition set_utc_set (v : bool) (c : Clock) : Clock :=
  mkClock (initialized c) v (utc_jump_cnt c) (utc_correction_usec_per_overflow c)
          (time_mono c) (time_utc c).
Definition set_utc_jump_cnt (v : Z) (c : Clock) : Clock :=
  mkClock (initialized c) (utc_set c) v (utc_correction_usec_per_overflow c)
          (time_mono c) (time_utc c).
Definition set_utc_correction (v : Z) (c : Clock) : Clock :=
  mkClock (initialized c) (utc_set c) (utc_jump_cnt c) v
          (time_mono c) (time_utc c).
Definition set_time_mono (v : Z) (c : Clock) : Clock :=
  mkClock (initialized c) (utc_set c) (utc_jump_cnt c)
          (utc_correction_usec_per_overflow c) v (time_utc c).
Definition set_time_utc (v : Z) (c : Clock) : Clock :=
  mkClock (initialized c) (utc_set c) (utc_jump_cnt c)
          (utc_correction_usec_per_overflow c) (time_mono c) v.

(** ** The functions of [uc_stm32_clock.cpp] *)

Definition init : M unit :=
  (* CriticalSectionLock lock; *)
  i <- load initialized ;;
  if i then ret tt
  else
    store (set_initialized true) ;;
    (* Power-on and reset (RCC); enable the IRQ vector (NVIC) *)
    mmio (fun _ => TIM.reset) ;;
    (* Start the timer *)
    mmio (TIM.set_ARR 65535) ;;
    mmio (TIM.set_PSC (TIMX_INPUT_CLOCK / 1000000 - 1)) ;;
    mmio (TIM.set_CR1 TIM.CR1_URS) ;;
    mmio (TIM.write_SR 0) ;;
    mmio (TIM.write_EGR TIM.EGR_UG) ;;
    mmio (TIM.set_DIER TIM.DIER_UIE) ;;
    mmio (TIM.set_CR1 TIM.CR1_CEN).

(** The sampler runs with the timer interrupt masked, so the handler does
    not run inside it, but the counter keeps counting: [d] gives the number
    of timer cycles that go by before each of its three volatile register
    reads. *)
Record latency : Type := mkLatency {
  before_cnt : nat;      (* between the read of [*value] and of [CNT] *)
  before_sr : nat;       (* between the read of [CNT] and of [SR] *)
  before_recnt : nat     (* between the read of [SR] and the second of [CNT] *)
}.

Definition no_latency : latency := mkLatency 0 0 0.

Definition sampleFromCriticalSection (value : Clock -> Z) (d : latency) : M Z :=
  i <- load initialized ;;
  assert i ;;
  dier <- reg TIM.DIER ;;
  assert (negb (Z.land dier TIM.DIER_UIE =? 0)) ;;
  time <- load value ;;
  elapse (before_cnt d) ;;
  cnt <- reg TIM.CNT ;;
  elapse (before_sr d) ;;
  sr <- reg TIM.SR ;;
  if negb (Z.land sr TIM.SR_UIF =? 0) then
    (* The timer has overflowed: sample the counter once more and add the
       period that the handler has not added yet to the local value. *)
    elapse (before_recnt d) ;;
    cnt <- reg TIM.CNT ;;
    let time := Int.u64 (time + USecPerOverflow) in
    ret (Int.u64 (time + cnt))
  else
    ret (Int.u64 (time + cnt)).

Definition getUtcUSecFromCanInterrupt (d : latency) : M Z :=
  us <- load utc_set ;;
  if us then sampleFromCriticalSection time_utc d else ret 0.

Definition getMonotonic (d : latency) : M MonotonicTime.t :=
  (* CriticalSectionLock locker; *)
  usec <- sampleFromCriticalSection time_mono d ;;
  (* debug builds: assert(prev_usec <= usec); prev_usec = usec;
     see [getMonotonic_selftest] below *)
  ret (MonotonicTime.fromUSec usec).

(** The self-test of [getMonotonic] in a debug build, run over the values
    of successive calls: [prev_usec] starts at zero and each value is
    compared with the one before. *)
Fixpoint getMonotonic_selftest (prev_usec : Z) (readings : list Z) : bool :=
  match readings with
  | [] => true
  | usec :: rest => (prev_usec <=? usec) && getMonotonic_selftest usec rest
  end.

Definition getUtc (d : latency) : M UtcTime.t :=
  us <- load utc_set ;;
  if us then
    (* CriticalSectionLock locker; *)
    usec <- sampleFromCriticalSection time_utc d ;;
    ret (UtcTime.fromUSec usec)
  else ret UtcTime.zero.

Definition adjustUtc (adjustment : UtcDuration.t) : M unit :=
  (* MutexLocker mlocker(mutex); *)
  i <- load initialized ;;
  assert i ;;
  us <- load utc_set ;;
  if UtcDuration.isZero adjustment && us then ret tt   (* Perfect sync *)
  else
    (* Naive speed adjustment *)
    c <- load utc_correction_usec_per_overflow ;;
    (if UtcDuration.isPositive adjustment then
       if c <? MaxUtcSpeedCorrection
       then store (set_utc_correction (Int.s32 (c + 1)))
       else ret tt
     else
       if c >? - MaxUtcSpeedCorrection
       then store (set_utc_correction (Int.s32 (c - 1)))
       else ret tt) ;;
    (* Clock value adjustment *)
    us <- load utc_set ;;
    if (UtcDuration.toMSec (UtcDuration.getAbs adjustment) >? 1) || negb us then
      let adj_usec := UtcDuration.toUSec adjustment in
      (* CriticalSectionLock locker; *)
      tu <- load time_utc ;;
      (if (adj_usec <? 0) && (Int.u64 (Int.s64 (- adj_usec)) >? tu)
       then store (set_time_utc 1)
       else store (set_time_utc (Int.u64 (tu + Int.u64 adj_usec)))) ;;
      us <- load utc_set ;;
      if us then
        j <- load utc_jump_cnt ;;
        store (set_utc_jump_cnt (Int.u32 (j + 1)))
      else
        store (set_utc_set true) ;;
        store (set_utc_correction 0)
    else ret tt.

Definition getUtcSpeedCorrectionPPM : M Z :=
  (* MutexLocker mlocker(mutex); *)
  c <- load utc_correction_usec_per_overflow ;;
  ret (Int.s32 (Z.quot (Int.s64 (Int.s32 (c * 1000000))) USecPerOverflow)).

Definition getUtcAjdustmentJumpCount : M Z :=
  (* MutexLocker mlocker(mutex); *)
  load utc_jump_cnt.

(** Timer interrupt handler. *)
Definition TIMX_IRQHandler : M unit :=
  mmio (TIM.write_SR (Int.u32 (Z.lnot TIM.SR_UIF))) ;;
  i <- load initialized ;;
  assert i ;;
  tm <- load time_mono ;;
  store (set_time_mono (Int.u64 (tm + USecPerOverflow))) ;;
  us <- load utc_set ;;
  if us then
    tu <- load time_utc ;;
    c <- load utc_correction_usec_per_overflow ;;
    store (set_time_utc (Int.u64 (tu + Int.u32 (USecPerOverflow + c))))
  else ret tt.

(** [SystemClock::instance]: the clock is initialized on first use. *)
Definition instance : M unit :=
  (* MutexLocker mlocker(clock::mutex); *)
  i <- load initialized ;;
  (if negb i then init else ret tt).
  (* static SystemClock inst; return inst; *)

(** ** Runs of the machine *)

(** What can happen to the machine: the timer counts, the timer interrupt
    is served, or one of the public functions is called.  A call is one
    step: the sampler runs with the interrupt masked, the handler writes
    nothing but the two accumulators, and [adjustUtc] touches [time_utc]
    inside a critical section only. *)
Inductive event : Type :=
| Tick
| Irq
| CallInit
| CallGetMonotonic (d : latency)
| CallGetUtc (d : latency)
| CallGetUtcUSecFromCanInterrupt (d : latency)
| CallAdjustUtc (adjustment : UtcDuration.t)
| CallGetUtcSpeedCorrectionPPM
| CallGetUtcAjdustmentJumpCount.

Definition exec (e : event) (m : Machine) : Machine :=
  match e with
  | Tick => snd (mmio TIM.tick m)
  | Irq => snd (TIMX_IRQHandler m)
  | CallInit => snd (init m)
  | CallGetMonotonic d => snd (getMonotonic d m)
  | CallGetUtc d => snd (getUtc d m)
  | CallGetUtcUSecFromCanInterrupt d => snd (getUtcUSecFromCanInterrupt d m)
  | CallAdjustUtc a => snd (adjustUtc a m)
  | CallGetUtcSpeedCorrectionPPM => snd (getUtcSpeedCorrectionPPM m)
  | CallGetUtcAjdustmentJumpCount => snd (getUtcAjdustmentJumpCount m)
  end.

(** The timer cycles inside a sampler call respect the once-per-wrap
    contract of the timer. *)
Definition sample_allowed (d : latency) (r : TIM.TypeDef) : bool :=
  TIM.elapse_allowed (before_cnt d) r
  && TIM.elapse_allowed (before_sr d) (TIM.elapse (before_cnt d) r)
  && (let r2 := TIM.elapse (before_sr d) (TIM.elapse (before_cnt d) r) in
      if TIM.uif r2 then TIM.elapse_allowed (before_recnt d) r2 else true).

(** When an event can happen: the interrupt is served only while it is
    pending and enabled; the public functions other than [init] are called
    on an initialized clock (what their assertions demand and what
    [SystemClock::instance] provides); a duration is a 64-bit value. *)
Definition allowed (e : event) (m : Machine) : bool :=
  match e with
  | Tick => TIM.tick_allowed (tim m)
  | Irq => TIM.uif (tim m) && TIM.uie (tim m)
  | CallInit => true
  | CallGetMonotonic d => initialized (clk m) && sample_allowed d (tim m)
  | CallGetUtc d | CallGetUtcUSecFromCanInterrupt d =>
      initialized (clk m)
      && (if utc_set (clk m) then sample_allowed d (tim m) else true)
  | CallAdjustUtc a => initialized (clk m) && Int.in_s64b (UtcDuration.toUSec a)
  | CallGetUtcSpeedCorrectionPPM | CallGetUtcAjdustmentJumpCount =>
      initialized (clk m)
  end.

Fixpoint run (tr : list event) (m : Machine) : Machine :=
  match tr with
  | [] => m
  | e :: tr' => run tr' (exec e m)
  end.

Fixpoint valid (tr : list event) (m : Machine) : bool :=
  match tr with
  | [] => true
  | e :: tr' => allowed e m && valid tr' (exec e m)
  end.

(** The values returned by the calls of [getMonotonic] in a run, in call
    order. *)
Fixpoint monotonic_readings (tr : list event) (m : Machine) : list Z :=
  match tr with
  | [] => []
  | CallGetMonotonic d :: tr' =>
      MonotonicTime.toUSec (fst (getMonotonic d m))
      :: monotonic_readings tr' (exec (CallGetMonotonic d) m)
  | e :: tr' => monotonic_readings tr' (exec e m)
  end.

Fixpoint irq_count (tr : list event) : nat :=
  match tr with
  | [] => O
  | Irq :: tr' => S (irq_count tr')
  | _ :: tr' => irq_count tr'
  end.

(** States the machine can be in, from power-on. *)
Inductive reachable : Machine -> Prop :=
| reach_power_on : reachable power_on
| reach_step e m : reachable m -> allowed e m = true -> reachable (exec e m).

(** The time the hardware and the accumulator stand for together: the
    accumulated periods, the period of a wrap the handler has not served
    yet, and the counter. *)
Definition mono_now (m : Machine) : Z :=
  time_mono (clk m)
  + (if TIM.uif (tim m) then USecPerOverflow else 0)
  + TIM.CNT (tim m).

(** The machine after the first [init], and the running timer one full
    period later, with its wrap not served yet. *)
Definition started : Machine := snd (init power_on).

Definition wrap_pending : Machine :=
  run (repeat Tick (Z.to_nat USecPerOverflow)) started.

(** ** Predicates and concrete machines used in the statements *)

(** An initialized clock on a timer whose counter is in range. *)
Definition running (m : Machine) : Prop :=
  initialized (clk m) = true
  /\ TIM.ok (tim m)
  /\ 0 <= time_mono (clk m).

(** The three parts of [adjustUtc], as expressions of the values it loads:
    the speed-trim step on the correction [c], *)
Definition speed_trim (a : UtcDuration.t) (c : Z) : Z :=
  if UtcDuration.isPositive a
  then (if c <? MaxUtcSpeedCorrection then Int.s32 (c + 1) else c)
  else (if c >? - MaxUtcSpeedCorrection then Int.s32 (c - 1) else c).

(** the condition under which it enters the clock value adjustment, *)
Definition offset_due (a : UtcDuration.t) (us : bool) : bool :=
  (UtcDuration.toMSec (UtcDuration.getAbs a) >? 1) || negb us.

(** and the value the clock value adjustment writes to [time_utc]. *)
Definition offset_value (a : UtcDuration.t) (tu : Z) : Z :=
  if (UtcDuration.toUSec a <? 0)
     && (Int.u64 (Int.s64 (- UtcDuration.toUSec a)) >? tu)
  then 1
  else Int.u64 (tu + Int.u64 (UtcDuration.toUSec a)).

(** What holds of the clock in every reachable state. *)
Definition clock_inv (c : Clock) : Prop :=
  - MaxUtcSpeedCorrection <= utc_correction_usec_per_overflow c
    <= MaxUtcSpeedCorrection
  /\ 0 <= utc_jump_cnt c < 2 ^ 32
  /\ 0 <= time_mono c < 2 ^ 64
  /\ 0 <= time_utc c < 2 ^ 64
  /\ (utc_set c = false ->
      utc_jump_cnt c = 0 /\ utc_correction_usec_per_overflow c = 0
      /\ time_utc c = 0).

Definition machine_inv (m : Machine) : Prop :=
  clock_inv (clk m) /\ TIM.ok (tim m).

(** The clock value adjustment leaves its mark on the bookkeeping: it either
    counts a jump or sets [utc_set]. *)
Definition offset_applied (c c' : Clock) : Prop :=
  utc_jump_cnt c' <> utc_jump_cnt c \/ utc_set c' <> utc_set c.

(** A running clock two microseconds before the first wrap of the timer. *)
Definition near_wrap : Machine :=
  mkMachine (mkClock true false 0 0 0 0) (TIM.mk 1 1 0 65534 83 65535).

(** Reads around the first wrap: before it, across it (the counter wraps
    between the read of [CNT] and the read of [SR]), while its interrupt is
    pending, and after the handler has run. *)
Definition race_trace : list event :=
  [ CallGetMonotonic no_latency;
    Tick;
    CallGetMonotonic (mkLatency 0 1 0);
    CallGetMonotonic no_latency;
    Irq;
    CallGetMonotonic no_latency;
    CallAdjustUtc (UtcDuration.fromUSec 5);
    Tick;
    CallGetMonotonic no_latency ].

(** The clock after a first adjustment by two seconds. *)
Definition synced : Machine :=
  snd (adjustUtc (UtcDuration.fromUSec 2000000) started).

(** A synchronized clock, one wrap served and the next one pending. *)
Definition synced_pending : Machine :=
  mkMachine (mkClock true true 0 3 65536 2000000) (TIM.mk 1 1 1 0 83 65535).

(** ** Further notions for runs *)

(** States the machine can get into from power-on when nothing is assumed
    of the order of events: any event at any time, calls made before [init]
    included. *)
Inductive attainable : Machine -> Prop :=
| att_power_on : attainable power_on
| att_step e m : attainable m -> attainable (exec e m).

(** The UTC counterpart of [mono_now]. *)
Definition utc_now (m : Machine) : Z :=
  time_utc (clk m)
  + (if TIM.uif (tim m) then USecPerOverflow else 0)
  + TIM.CNT (tim m).

(** The timer cycles that go by inside a sampler call. *)
Definition sample_ticks (d : latency) (r : TIM.TypeDef) : nat :=
  (before_cnt d + before_sr d
   + (if TIM.uif (TIM.elapse (before_sr d) (TIM.elapse (before_cnt d) r))
      then before_recnt d else 0))%nat.

(** The timer cycles that go by during an event, and during a run. *)
Definition ticks_in (e : event) (m : Machine) : nat :=
  match e with
  | Tick => 1
  | CallGetMonotonic d => sample_ticks d (tim m)
  | CallGetUtc d | CallGetUtcUSecFromCanInterrupt d =>
      if utc_set (clk m) then sample_ticks d (tim m) else 0
  | _ => 0
  end.

Fixpoint ticks_of (tr : list event) (m : Machine) : nat :=
  match tr with
  | [] => O
  | e :: tr' => (ticks_in e m + ticks_of tr' (exec e m))%nat
  end.

(** The values returned by the calls of [getUtc] and of
    [getUtcUSecFromCanInterrupt] in a run, in call order. *)
Fixpoint utc_readings (tr : list event) (m : Machine) : list Z :=
  match tr with
  | [] => []
  | CallGetUtc d :: tr' =>
      UtcTime.toUSec (fst (getUtc d m))
      :: utc_readings tr' (exec (CallGetUtc d) m)
  | CallGetUtcUSecFromCanInterrupt d :: tr' =>
      fst (getUtcUSecFromCanInterrupt d m)
      :: utc_readings tr' (exec (CallGetUtcUSecFromCanInterrupt d) m)
  | e :: tr' => utc_readings tr' (exec e m)
  end.

(** Runs without a call of [adjustUtc]. *)
Fixpoint adjust_free (tr : list event) : bool :=
  match tr with
  | [] => true
  | CallAdjustUtc _ :: _ => false
  | _ :: tr' => adjust_free tr'
  end.

(** The adjustments of a list whose magnitude is two milliseconds or
    more. *)
Fixpoint offset_count (l : list UtcDuration.t) : nat :=
  match l with
  | [] => O
  | a :: l' =>
      ((if (2000 <=? Z.abs (UtcDuration.toUSec a))%Z then 1 else 0)
       + offset_count l')%nat
  end.

(** ** Arithmetic of the fixed-width types *)

Module IntFacts.

Lemma u64_small x : 0 <= x < 2 ^ 64 -> Int.u64 x = x.
Proof. intros H. unfold Int.u64. now apply Z.mod_small. Qed.

Lemma u32_small x : 0 <= x < 2 ^ 32 -> Int.u32 x = x.
Proof. intros H. unfold Int.u32. now apply Z.mod_small. Qed.

Lemma s32_small x : - 2 ^ 31 <= x < 2 ^ 31 -> Int.s32 x = x.
Proof.
  intros H. unfold Int.s32. rewrite Z.mod_small; lia.
Qed.

Lemma s64_small x : - 2 ^ 63 <= x < 2 ^ 63 -> Int.s64 x = x.
Proof.
  intros H. unfold Int.s64. rewrite Z.mod_small; lia.
Qed.

Lemma u64_range x : 0 <= Int.u64 x < 2 ^ 64.
Proof. unfold Int.u64. apply Z.mod_pos_bound. lia. Qed.

Lemma u32_range x : 0 <= Int.u32 x < 2 ^ 32.
Proof. unfold Int.u32. apply Z.mod_pos_bound. lia. Qed.

(** Adding a converted signed value to an unsigned one is addition
    modulo [2 ^ 64]. *)
Lemma u64_add_u64 x y : Int.u64 (x + Int.u64 y) = Int.u64 (x + y).
Proof. unfold Int.u64. now rewrite Zplus_mod_idemp_r. Qed.

(** The magnitude of a negative 64-bit value, as the source computes it:
    negation in the signed type, then conversion to the unsigned one. *)
Lemma u64_neg_s64 x :
  - 2 ^ 63 <= x < 0 -> Int.u64 (Int.s64 (- x)) = - x.
Proof.
  intros H. unfold Int.u64, Int.s64.
  destruct (Z.eq_dec x (- 2 ^ 63)) as [-> | Hne].
  - reflexivity.
  - rewrite (Z.mod_small (- x + 2 ^ 63)) by lia.
    rewrite Z.mod_small; lia.
Qed.

Lemma in_s64b_spec x : Int.in_s64b x = true <-> Int.in_s64 x.
Proof.
  unfold Int.in_s64b, Int.in_s64.
  rewrite andb_true_iff, Z.leb_le, Z.ltb_lt. tauto.
Qed.

End IntFacts.

(** ** The timer *)

Module TIMFacts.

Import TIM.

Lemma land_1 x : Z.land x 1 = Z.b2z (Z.testbit x 0).
Proof.
  change 1 with (Z.ones 1) at 1.
  rewrite Z.land_ones by lia. now rewrite Z.bit0_mod.
Qed.

Lemma flag_testbit x : negb (Z.land x 1 =? 0) = Z.testbit x 0.
Proof. rewrite land_1. now destruct (Z.testbit x 0). Qed.

Lemma uif_testbit r : uif r = Z.testbit (SR r) 0.
Proof. unfold uif, SR_UIF. apply flag_testbit. Qed.

Lemma uif_raise r c d n p a :
  uif (mk c d (Z.lor (SR r) SR_UIF) n p a) = true.
Proof.
  rewrite uif_testbit. cbn [SR]. rewrite Z.lor_spec.
  apply orb_true_r.
Qed.

Lemma uif_clear r :
  uif (write_SR (Int.u32 (Z.lnot SR_UIF)) r) = false.
Proof.
  rewrite uif_testbit. unfold write_SR. cbn [SR]. rewrite Z.land_spec.
  apply andb_false_r.
Qed.

Lemma tick_ok r : ok r -> ok (tick r).
Proof.
  unfold ok, tick. intros [Ha Hc].
  destruct (cen r); [|tauto].
  destruct (CNT r =? ARR r) eqn:E; simpl; split; lia.
Qed.

Lemma tick_uif r : uif r = true -> uif (tick r) = true.
Proof.
  unfold tick. intros H.
  destruct (cen r); [|assumption].
  destruct (CNT r =? ARR r).
  - apply uif_raise.
  - exact H.
Qed.

Lemma elapse_ok n : forall r, ok r -> ok (elapse n r).
Proof.
  induction n as [|n IH]; simpl; intros r H; [assumption|].
  apply IH. now apply tick_ok.
Qed.

Lemma elapse_uif n : forall r, uif r = true -> uif (elapse n r) = true.
Proof.
  induction n as [|n IH]; simpl; intros r H; [assumption|].
  apply IH. now apply tick_uif.
Qed.

Lemma elapse_uif_back n r : uif (elapse n r) = false -> uif r = false.
Proof.
  intros H. destruct (uif r) eqn:E; [|reflexivity].
  apply (elapse_uif n) in E. congruence.
Qed.

(** A cycle of the timer never takes the time back, and advances it by
    at most one microsecond. *)
Lemma tick_now v r :
  ok r -> tick_allowed r = true -> now v r <= now v (tick r) <= now v r + 1.
Proof.
  unfold ok, tick_allowed, now, tick, USecPerOverflow. intros [Ha Hc] Hal.
  destruct (cen r); [|lia].
  destruct (CNT r =? ARR r) eqn:E.
  - apply Z.eqb_eq in E. rewrite uif_raise.
    destruct (uif r); simpl in *; [discriminate | lia].
  - replace (uif (mk (CR1 r) (DIER r) (SR r) (CNT r + 1) (PSC r) (ARR r)))
      with (uif r) by reflexivity.
    simpl. destruct (uif r); lia.
Qed.

Lemma elapse_now v n : forall r,
  ok r -> elapse_allowed n r = true -> now v r <= now v (elapse n r).
Proof.
  induction n as [|n IH]; simpl; intros r Hok Hal; [lia|].
  apply andb_true_iff in Hal. destruct Hal as [H1 H2].
  pose proof (tick_now v Hok H1).
  pose proof (IH (tick r) (tick_ok Hok) H2). lia.
Qed.

End TIMFacts.

(** ** The sampler *)

Ltac run_monad :=
  unfold bind, load, store, reg, elapse, mmio, assert, ret;
  cbn beta iota zeta delta [clk tim fst snd].

Lemma sample_eq value d m :
  let r1 := TIM.elapse (before_cnt d) (tim m) in
  let r2 := TIM.elapse (before_sr d) r1 in
  let r3 := TIM.elapse (before_recnt d) r2 in
  sampleFromCriticalSection value d m =
  if TIM.uif r2
  then (Int.u64 (Int.u64 (value (clk m) + USecPerOverflow) + TIM.CNT r3),
        mkMachine (clk m) r3)
  else (Int.u64 (value (clk m) + TIM.CNT r1), mkMachine (clk m) r2).
Proof.
  destruct m as [c r]. unfold sampleFromCriticalSection. run_monad.
  cbn [clk tim fst snd]. unfold TIM.uif.
  destruct (negb _); reflexivity.
Qed.

(** The sampler does not write the variables of the clock. *)
Lemma sample_clk value d m :
  clk (snd (sampleFromCriticalSection value d m)) = clk m.
Proof.
  pose proof (sample_eq value d m) as H. cbv zeta in H. rewrite H.
  destruct (TIM.uif _); reflexivity.
Qed.

(** With a counter in range and no 64-bit wrap-around in reach, the sampled
    value lies between the time at the call and the time at the return. *)
Lemma sample_bounds value d m :
  TIM.ok (tim m) ->
  sample_allowed d (tim m) = true ->
  0 <= value (clk m) ->
  value (clk m) + 2 * USecPerOverflow <= 2 ^ 64 ->
  TIM.ok (tim (snd (sampleFromCriticalSection value d m)))
  /\ TIM.now (value (clk m)) (tim m)
     <= fst (sampleFromCriticalSection value d m)
     <= TIM.now (value (clk m))
          (tim (snd (sampleFromCriticalSection value d m))).
Proof.
  intros Hok Hal H0 Hb.
  pose proof (sample_eq value d m) as E. cbv zeta in E. rewrite E. clear E.
  unfold sample_allowed in Hal.
  apply andb_true_iff in Hal. destruct Hal as [Hal H3].
  apply andb_true_iff in Hal. destruct Hal as [H1 H2].
  set (v := value (clk m)) in *.
  set (r1 := TIM.elapse (before_cnt d) (tim m)) in *.
  set (r2 := TIM.elapse (before_sr d) r1) in *.
  assert (Hok1 : TIM.ok r1) by now apply TIMFacts.elapse_ok.
  assert (Hok2 : TIM.ok r2) by now apply TIMFacts.elapse_ok.
  pose proof (TIMFacts.elapse_now v _ Hok H1) as L1. fold r1 in L1.
  pose proof (TIMFacts.elapse_now v _ Hok1 H2) as L2. fold r2 in L2.
  unfold USecPerOverflow in *.
  destruct (TIM.uif r2) eqn:U2; cbn [fst snd tim].
  - set (r3 := TIM.elapse (before_recnt d) r2) in *.
    assert (Hok3 : TIM.ok r3) by now apply TIMFacts.elapse_ok.
    pose proof (TIMFacts.elapse_now v _ Hok2 H3) as L3. fold r3 in L3.
    assert (U3 : TIM.uif r3 = true) by now apply TIMFacts.elapse_uif.
    split; [assumption|].
    destruct Hok3 as [_ Hc3].
    rewrite (IntFacts.u64_small (x := v + 65536)) by lia.
    rewrite IntFacts.u64_small by lia.
    unfold TIM.now, USecPerOverflow in *. rewrite U3. rewrite U3 in L3.
    lia.
  - split; [assumption|].
    assert (U1 : TIM.uif r1 = false) by now apply TIMFacts.elapse_uif_back in U2.
    destruct Hok1 as [_ Hc1].
    rewrite IntFacts.u64_small by lia.
    unfold TIM.now, USecPerOverflow in *. rewrite U1 in *. rewrite U2 in *.
    lia.
Qed.

(** ** What each function leaves alone *)

Lemma init_running m : initialized (clk m) = true -> init m = (tt, m).
Proof.
  intros H. unfold init. run_monad. rewrite H. reflexivity.
Qed.

Lemma adjustUtc_frame a m :
  tim (snd (adjustUtc a m)) = tim m
  /\ initialized (clk (snd (adjustUtc a m))) = initialized (clk m)
  /\ time_mono (clk (snd (adjustUtc a m))) = time_mono (clk m).
Proof.
  destruct m as [[i us j c tm tu] r].
  unfold adjustUtc. run_monad. cbn [clk tim].
  repeat match goal with
         | |- context [if ?b then _ else _] => destruct b
         end; cbn; auto.
Qed.

Lemma handler_eq m :
  TIMX_IRQHandler m =
  (tt, mkMachine
         (let c := set_time_mono (Int.u64 (time_mono (clk m) + USecPerOverflow))
                                 (clk m) in
          if utc_set (clk m)
          then set_time_utc
                 (Int.u64 (time_utc (clk m)
                           + Int.u32 (USecPerOverflow
                                      + utc_correction_usec_per_overflow (clk m))))
                 c
          else c)
         (TIM.write_SR (Int.u32 (Z.lnot TIM.SR_UIF)) (tim m))).
Proof.
  destruct m as [[i us j c tm tu] r].
  unfold TIMX_IRQHandler. run_monad. cbn [clk tim utc_set].
  destruct us; reflexivity.
Qed.

Lemma handler_fields m :
  let m' := snd (TIMX_IRQHandler m) in
  initialized (clk m') = initialized (clk m)
  /\ utc_set (clk m') = utc_set (clk m)
  /\ utc_jump_cnt (clk m') = utc_jump_cnt (clk m)
  /\ utc_correction_usec_per_overflow (clk m')
     = utc_correction_usec_per_overflow (clk m)
  /\ time_mono (clk m') = Int.u64 (time_mono (clk m) + USecPerOverflow)
  /\ time_utc (clk m')
     = (if utc_set (clk m)
        then Int.u64 (time_utc (clk m)
                      + Int.u32 (USecPerOverflow
                                 + utc_correction_usec_per_overflow (clk m)))
        else time_utc (clk m))
  /\ tim m' = TIM.write_SR (Int.u32 (Z.lnot TIM.SR_UIF)) (tim m).
Proof.
  rewrite handler_eq. cbn [snd clk tim]. cbv zeta.
  destruct (utc_set (clk m)) eqn:E; cbn; rewrite ?E; auto 10.
Qed.

Lemma getMonotonic_eq d m :
  getMonotonic d m =
  (MonotonicTime.fromUSec (fst (sampleFromCriticalSection time_mono d m)),
   snd (sampleFromCriticalSection time_mono d m)).
Proof.
  unfold getMonotonic, bind, ret.
  destruct (sampleFromCriticalSection time_mono d m); reflexivity.
Qed.

Lemma getUtc_eq d m :
  getUtc d m =
  if utc_set (clk m)
  then (UtcTime.fromUSec (fst (sampleFromCriticalSection time_utc d m)),
        snd (sampleFromCriticalSection time_utc d m))
  else (UtcTime.zero, m).
Proof.
  unfold getUtc, bind, load, ret.
  destruct (utc_set (clk m)); [|reflexivity].
  destruct (sampleFromCriticalSection time_utc d m); reflexivity.
Qed.

Lemma getUtcUSecFromCanInterrupt_eq d m :
  getUtcUSecFromCanInterrupt d m =
  if utc_set (clk m) then sampleFromCriticalSection time_utc d m else (0, m).
Proof.
  unfold getUtcUSecFromCanInterrupt, bind, load, ret.
  destruct (utc_set (clk m)); reflexivity.
Qed.

(** The timer registers after a sampler call do not depend on which
    accumulator was sampled. *)
Lemma sample_tim value value' d m :
  tim (snd (sampleFromCriticalSection value d m))
  = tim (snd (sampleFromCriticalSection value' d m)).
Proof.
  pose proof (sample_eq value d m) as H. cbv zeta in H. rewrite H.
  pose proof (sample_eq value' d m) as H'. cbv zeta in H'. rewrite H'.
  destruct (TIM.uif _); reflexivity.
Qed.

(** ** Monotonic time along a run *)

Lemma irq_count_cons e tr :
  irq_count (e :: tr) = (irq_count [e] + irq_count tr)%nat.
Proof. destruct e; reflexivity. Qed.

Lemma sample_step value d m :
  running m ->
  sample_allowed d (tim m) = true ->
  time_mono (clk m) + 2 * USecPerOverflow <= 2 ^ 64 ->
  let m' := snd (sampleFromCriticalSection value d m) in
  running m' /\ clk m' = clk m /\ mono_now m <= mono_now m'.
Proof.
  intros (Hi & Hok & H0) Hal Hb m'.
  assert (Hc : clk m' = clk m) by apply sample_clk.
  destruct (sample_bounds time_mono d m Hok Hal H0 Hb) as [Hok' Hnow].
  rewrite (sample_tim time_mono value) in Hok', Hnow. fold m' in Hok', Hnow.
  unfold running, mono_now. rewrite Hc.
  repeat split; try assumption; try apply Hok'.
  unfold TIM.now in Hnow. lia.
Qed.

Lemma exec_step e m :
  running m ->
  allowed e m = true ->
  time_mono (clk m) + USecPerOverflow * (Z.of_nat (irq_count [e]) + 2) <= 2 ^ 64 ->
  running (exec e m)
  /\ time_mono (clk (exec e m))
     = time_mono (clk m) + USecPerOverflow * Z.of_nat (irq_count [e])
  /\ mono_now m <= mono_now (exec e m).
Proof.
  intros Hrun Hal Hb.
  assert (Hsame : forall m', running m' -> clk m' = clk m ->
                             mono_now m <= mono_now m' ->
            irq_count [e] = O ->
            running m'
            /\ time_mono (clk m')
               = time_mono (clk m) + USecPerOverflow * Z.of_nat (irq_count [e])
            /\ mono_now m <= mono_now m').
  { intros m' H1 H2 H3 H4. rewrite H4, H2.
    change (Z.of_nat 0) with 0. rewrite Z.mul_0_r, Z.add_0_r. auto. }
  assert (Hb2 : irq_count [e] = O ->
                time_mono (clk m) + 2 * USecPerOverflow <= 2 ^ 64).
  { intros E. rewrite E in Hb. unfold USecPerOverflow in *. lia. }
  pose proof Hrun as (Hi & Hok & H0).
  destruct e; cbn [exec allowed] in *.
  - (* Tick *)
    apply Hsame; try reflexivity.
    + unfold running; cbn. repeat split; try assumption; now apply TIMFacts.tick_ok.
    + unfold mono_now; cbn [mmio snd clk tim].
      apply (TIMFacts.tick_now (time_mono (clk m)) Hok Hal).
  - (* Irq *)
    apply andb_true_iff in Hal. destruct Hal as [Hu _].
    destruct (handler_fields m) as (G1 & _ & _ & _ & G5 & _ & G7).
    cbn [irq_count Z.of_nat] in *. unfold USecPerOverflow in *.
    rewrite IntFacts.u64_small in G5 by lia.
    unfold running, mono_now. rewrite G1, G5, G7.
    rewrite TIMFacts.uif_clear, Hu. unfold USecPerOverflow.
    cbn [TIM.CNT TIM.write_SR].
    repeat split; try assumption; try apply Hok; lia.
  - (* init *)
    rewrite (init_running m Hi). apply Hsame; try reflexivity; try assumption; try lia.
  - (* getMonotonic *)
    apply andb_true_iff in Hal. destruct Hal as [_ Hal].
    rewrite getMonotonic_eq. cbn [snd].
    destruct (sample_step time_mono d Hrun Hal (Hb2 eq_refl)) as (R1 & R2 & R3).
    now apply Hsame.
  - (* getUtc *)
    apply andb_true_iff in Hal. destruct Hal as [_ Hal].
    rewrite getUtc_eq. destruct (utc_set (clk m)); cbn [snd].
    + destruct (sample_step time_utc d Hrun Hal (Hb2 eq_refl)) as (R1 & R2 & R3).
      now apply Hsame.
    + apply Hsame; try reflexivity; try assumption; try lia.
  - (* getUtcUSecFromCanInterrupt *)
    apply andb_true_iff in Hal. destruct Hal as [_ Hal].
    rewrite getUtcUSecFromCanInterrupt_eq. destruct (utc_set (clk m)); cbn [snd].
    + destruct (sample_step time_utc d Hrun Hal (Hb2 eq_refl)) as (R1 & R2 & R3).
      now apply Hsame.
    + apply Hsame; try reflexivity; try assumption; try lia.
  - (* adjustUtc *)
    destruct (adjustUtc_frame adjustment m) as (F1 & F2 & F3).
    cbn [irq_count Z.of_nat]. unfold running, mono_now.
    rewrite F1, F2, F3. repeat split; try assumption; try apply Hok; lia.
  - apply Hsame; try reflexivity; try assumption; try lia.
  - apply Hsame; try reflexivity; try assumption; try lia.
Qed.

Lemma getMonotonic_between d m :
  running m ->
  allowed (CallGetMonotonic d) m = true ->
  time_mono (clk m) + 2 * USecPerOverflow <= 2 ^ 64 ->
  mono_now m
  <= MonotonicTime.toUSec (fst (getMonotonic d m))
  <= mono_now (exec (CallGetMonotonic d) m).
Proof.
  intros (Hi & Hok & H0) Hal Hb. cbn [allowed exec] in *.
  apply andb_true_iff in Hal. destruct Hal as [_ Hal].
  rewrite getMonotonic_eq. cbn [fst snd MonotonicTime.toUSec].
  destruct (sample_bounds time_mono d m Hok Hal H0 Hb) as [_ Hnow].
  unfold mono_now. rewrite sample_clk. exact Hnow.
Qed.

Lemma readings_bounded tr : forall m,
  running m ->
  valid tr m = true ->
  time_mono (clk m) + USecPerOverflow * (Z.of_nat (irq_count tr) + 2) <= 2 ^ 64 ->
  Forall (fun o => mono_now m <= o) (monotonic_readings tr m)
  /\ Sorted Z.le (monotonic_readings tr m).
Proof.
  induction tr as [|e tr IH]; intros m Hrun Hv Hb.
  - simpl. split; constructor.
  - cbn [valid] in Hv. apply andb_true_iff in Hv. destruct Hv as [Hal Hv].
    rewrite irq_count_cons, Nat2Z.inj_add in Hb.
    assert (Hpos : 0 <= Z.of_nat (irq_count tr)) by lia.
    assert (Hpos' : 0 <= Z.of_nat (irq_count [e])) by lia.
    unfold USecPerOverflow in *.
    destruct (exec_step e Hrun Hal) as (Hrun' & Htm & Hnow).
    { unfold USecPerOverflow. lia. }
    unfold USecPerOverflow in Htm.
    destruct (IH (exec e m) Hrun' Hv) as [Hall Hs].
    { unfold USecPerOverflow. lia. }
    assert (Hall' : Forall (fun o => mono_now m <= o)
                           (monotonic_readings tr (exec e m))).
    { eapply Forall_impl; [|exact Hall]. cbv beta. intros; lia. }
    destruct e; cbn [monotonic_readings]; try (split; assumption).
    assert (Hbt : mono_now m
                  <= MonotonicTime.toUSec (fst (getMonotonic d m))
                  <= mono_now (exec (CallGetMonotonic d) m)).
    { apply getMonotonic_between; try assumption.
      cbn [irq_count Z.of_nat] in Hb. unfold USecPerOverflow. lia. }
    split.
    + constructor; [lia | assumption].
    + constructor; [assumption|].
      destruct (monotonic_readings tr (exec (CallGetMonotonic d) m)) as [|o os];
        constructor.
      inversion Hall; subst. lia.
Qed.

(** ** The adjuster, branch by branch *)

Lemma adjustUtc_eq a m :
  adjustUtc a m =
  (tt, mkMachine
         (let c := clk m in
          if UtcDuration.isZero a && utc_set c then c
          else
            let corr := speed_trim a (utc_correction_usec_per_overflow c) in
            if offset_due a (utc_set c)
            then mkClock (initialized c) true
                         (if utc_set c then Int.u32 (utc_jump_cnt c + 1)
                          else utc_jump_cnt c)
                         (if utc_set c then corr else 0)
                         (time_mono c)
                         (offset_value a (time_utc c))
            else set_utc_correction corr c)
         (tim m)).
Proof.
  destruct m as [[i us j c tm tu] r].
  unfold adjustUtc, speed_trim, offset_due, offset_value. run_monad.
  cbn [utc_set utc_jump_cnt utc_correction_usec_per_overflow time_utc
       time_mono initialized].
  destruct us;
    repeat (match goal with
            | |- context [if ?b then _ else _] => destruct b
            end;
            cbn [clk tim utc_set utc_jump_cnt utc_correction_usec_per_overflow
                 time_utc time_mono initialized set_utc_correction set_time_utc
                 set_utc_jump_cnt set_utc_set negb orb andb]);
    reflexivity.
Qed.

(** The magnitude in whole milliseconds exceeds one exactly from two
    milliseconds on. *)
Lemma toMSec_getAbs a :
  - 2 ^ 63 < UtcDuration.toUSec a < 2 ^ 63 ->
  (UtcDuration.toMSec (UtcDuration.getAbs a) >? 1) = true
  <-> 2000 <= Z.abs (UtcDuration.toUSec a).
Proof.
  intros Hr. unfold UtcDuration.toMSec, UtcDuration.getAbs.
  cbn [UtcDuration.toUSec].
  assert (E : (if UtcDuration.toUSec a <? 0
               then Int.s64 (- UtcDuration.toUSec a)
               else UtcDuration.toUSec a) = Z.abs (UtcDuration.toUSec a)).
  { destruct (UtcDuration.toUSec a <? 0) eqn:L.
    - rewrite IntFacts.s64_small by lia. lia.
    - lia. }
  rewrite E. set (x := Z.abs (UtcDuration.toUSec a)).
  assert (Hx : 0 <= x) by (unfold x; lia).
  rewrite Z.quot_div_nonneg by lia.
  rewrite Z.gtb_ltb, Z.ltb_lt.
  split; intros H.
  - destruct (Z_lt_le_dec x 2000) as [L|L]; [|assumption].
    assert (x / 1000 < 2) by (apply Z.div_lt_upper_bound; lia). lia.
  - assert (2 <= x / 1000) by (apply Z.div_le_lower_bound; lia). lia.
Qed.

(** A 32-bit counter never keeps its value when incremented. *)
Lemma u32_incr_neq j : Int.u32 (j + 1) <> j.
Proof.
  unfold Int.u32. intros H.
  pose proof (Z.mod_pos_bound (j + 1) (2 ^ 32) ltac:(lia)) as B.
  rewrite H in B.
  destruct (Z.eq_dec (j + 1) (2 ^ 32)) as [E|E].
  - rewrite E, Z.mod_same in H by lia. lia.
  - rewrite Z.mod_small in H by lia. lia.
Qed.

Lemma speed_trim_spec a c :
  - MaxUtcSpeedCorrection <= c <= MaxUtcSpeedCorrection ->
  speed_trim a c
  = if 0 <? UtcDuration.toUSec a
    then Z.min (c + 1) MaxUtcSpeedCorrection
    else Z.max (c - 1) (- MaxUtcSpeedCorrection).
Proof.
  unfold speed_trim, UtcDuration.isPositive, MaxUtcSpeedCorrection. intros H.
  destruct (0 <? UtcDuration.toUSec a).
  - destruct (c <? 500) eqn:E.
    + rewrite IntFacts.s32_small; lia.
    + lia.
  - destruct (c >? - (500)) eqn:E.
    + rewrite IntFacts.s32_small; lia.
    + lia.
Qed.

(** ** Invariants of the reachable states *)

Lemma sample_ok value d m :
  TIM.ok (tim m) ->
  TIM.ok (tim (snd (sampleFromCriticalSection value d m))).
Proof.
  intros H. pose proof (sample_eq value d m) as E. cbv zeta in E. rewrite E.
  destruct (TIM.uif _); cbn [snd tim]; repeat apply TIMFacts.elapse_ok; exact H.
Qed.

Lemma offset_value_range a tu : 0 <= offset_value a tu < 2 ^ 64.
Proof.
  unfold offset_value.
  destruct (_ && _); [lia | apply IntFacts.u64_range].
Qed.

Lemma adjustUtc_inv a m :
  machine_inv m -> machine_inv (snd (adjustUtc a m)).
Proof.
  intros [(Hc & Hj & Hm & Hu & Hz) Hok].
  rewrite adjustUtc_eq. cbn [snd]. cbv zeta.
  split; [|exact Hok]. cbn [clk].
  pose proof (speed_trim_spec a Hc) as Hs.
  assert (Ht : - MaxUtcSpeedCorrection
               <= speed_trim a (utc_correction_usec_per_overflow (clk m))
               <= MaxUtcSpeedCorrection).
  { rewrite Hs. unfold MaxUtcSpeedCorrection in *.
    destruct (0 <? UtcDuration.toUSec a); lia. }
  destruct (UtcDuration.isZero a && utc_set (clk m)).
  { unfold clock_inv; auto 10. }
  unfold offset_due.
  destruct (utc_set (clk m)) eqn:Us.
  - destruct (_ || _); unfold clock_inv; cbn.
    + repeat split; try apply Ht; try apply IntFacts.u32_range;
        try apply offset_value_range; try apply Hm; discriminate.
    + rewrite Us. repeat split; try apply Ht; try apply Hj; try apply Hm;
        try apply Hu; discriminate.
  - rewrite orb_true_r. unfold clock_inv; cbn.
    destruct (Hz eq_refl) as (Z1 & Z2 & Z3).
    unfold MaxUtcSpeedCorrection.
    repeat split; try apply Hj; try apply Hm; try apply offset_value_range;
      try lia; discriminate.
Qed.

Lemma handler_inv m :
  machine_inv m -> machine_inv (snd (TIMX_IRQHandler m)).
Proof.
  intros [(Hc & Hj & Hm & Hu & Hz) Hok].
  destruct (handler_fields m) as (G1 & G2 & G3 & G4 & G5 & G6 & G7).
  unfold machine_inv, clock_inv. rewrite G2, G3, G4, G5, G6, G7.
  split; [|apply Hok].
  split; [exact Hc|]. split; [exact Hj|].
  split; [apply IntFacts.u64_range|].
  split.
  - destruct (utc_set (clk m)); [apply IntFacts.u64_range | apply Hu].
  - intros E. rewrite E. now apply Hz.
Qed.

Lemma init_inv m : machine_inv m -> machine_inv (snd (init m)).
Proof.
  intros [Hc Hok]. unfold init. run_monad.
  destruct (initialized (clk m)); cbn [snd].
  - split; assumption.
  - split.
    + exact Hc.
    + unfold TIM.ok. cbn. lia.
Qed.

Lemma exec_inv e m : machine_inv m -> machine_inv (exec e m).
Proof.
  intros H. destruct e; cbn [exec].
  - destruct H as [Hc Hok]. split; [exact Hc | now apply TIMFacts.tick_ok].
  - now apply handler_inv.
  - now apply init_inv.
  - rewrite getMonotonic_eq. cbn [snd]. destruct H as [Hc Hok].
    split; [now rewrite sample_clk | now apply sample_ok].
  - rewrite getUtc_eq. destruct (utc_set (clk m)); cbn [snd]; [|exact H].
    destruct H as [Hc Hok].
    split; [now rewrite sample_clk | now apply sample_ok].
  - rewrite getUtcUSecFromCanInterrupt_eq.
    destruct (utc_set (clk m)); cbn [snd]; [|exact H].
    destruct H as [Hc Hok].
    split; [now rewrite sample_clk | now apply sample_ok].
  - now apply adjustUtc_inv.
  - exact H.
  - exact H.
Qed.

Lemma power_on_inv : machine_inv power_on.
Proof.
  unfold machine_inv, clock_inv, TIM.ok, MaxUtcSpeedCorrection. cbn.
  repeat split; lia.
Qed.

Lemma reachable_inv m : reachable m -> machine_inv m.
Proof.
  induction 1 as [|e m _ IH _]; [apply power_on_inv | now apply exec_inv].
Qed.

(** A reachable machine whose clock is initialized is running. *)
Lemma reachable_running m :
  reachable m -> initialized (clk m) = true -> running m.
Proof.
  intros Hr Hi. destruct (reachable_inv Hr) as [(_ & _ & Hm & _) Hok].
  unfold running. repeat split; try assumption; try apply Hok; apply Hm.
Qed.

(** X17. Along a run, the monotonic accumulator holds one period for each
    invocation of the handler, wherever the reads fall: no period is skipped
    and none is added twice. *)
Lemma run_time_mono tr : forall m,
  running m ->
  valid tr m = true ->
  time_mono (clk m) + USecPerOverflow * (Z.of_nat (irq_count tr) + 2) <= 2 ^ 64 ->
  time_mono (clk (run tr m))
  = time_mono (clk m) + USecPerOverflow * Z.of_nat (irq_count tr).
Proof.
  induction tr as [|e tr IH]; intros m Hrun Hv Hb.
  - cbn. lia.
  - cbn [valid] in Hv. apply andb_true_iff in Hv. destruct Hv as [Hal Hv].
    rewrite irq_count_cons, Nat2Z.inj_add in *.
    unfold USecPerOverflow in *.
    destruct (exec_step e Hrun Hal) as (Hrun' & Htm & _).
    { unfold USecPerOverflow. lia. }
    unfold USecPerOverflow in Htm. cbn [run].
    rewrite IH; try assumption; unfold USecPerOverflow; lia.
Qed.

(** ** Concrete machines *)

Lemma started_reachable : reachable started.
Proof. exact (reach_step CallInit reach_power_on eq_refl). Qed.

Example near_wrap_run :
  run (repeat Tick (Z.to_nat 65534)) started = near_wrap.
Proof. vm_compute. reflexivity. Qed.

Example race_trace_readings :
  monotonic_readings race_trace near_wrap = [65534; 65536; 65536; 65536; 65537].
Proof. vm_compute. reflexivity. Qed.

(** The once-per-wrap contract of the timer is needed: were the counter to
    wrap a second time before the handler served the first wrap, one period
    would be lost and the monotonic time would step back. *)
Remark unserved_wrap_steps_back :
  let m := mkMachine (mkClock true false 0 0 0 0) (TIM.mk 1 1 1 65535 83 65535) in
  let tr := [CallGetMonotonic no_latency; Tick; CallGetMonotonic no_latency] in
  valid tr m = false /\ monotonic_readings tr m = [131071; 65536].
Proof. vm_compute. split; reflexivity. Qed.

Lemma synced_reachable : reachable synced.
Proof.
  exact (reach_step (CallAdjustUtc (UtcDuration.fromUSec 2000000))
                    started_reachable eq_refl).
Qed.

(** ** Monotonic time *)

(** C1. Along every run from a running clock in which the timer interrupt
    is served once per wrap and the 64-bit accumulator does not wrap around,
    the values returned by the calls of [getMonotonic] are non-decreasing in
    call order: each earlier value is at most each later one.  The runs
    include reads that fall between a wrap of the counter and the handler,
    and reads during which the counter wraps. *)
Theorem getMonotonic_nondecreasing tr m :
  running m ->
  valid tr m = true ->
  time_mono (clk m) + USecPerOverflow * (Z.of_nat (irq_count tr) + 2) <= 2 ^ 64 ->
  StronglySorted Z.le (monotonic_readings tr m).
Proof.
  intros Hrun Hv Hb.
  apply Sorted_StronglySorted.
  - intros x y z. apply Z.le_trans.
  - now apply readings_bounded.
Qed.

Lemma getMonotonic_nondecreasing_witness :
  running near_wrap
  /\ valid race_trace near_wrap = true
  /\ StronglySorted Z.le (monotonic_readings race_trace near_wrap).
Proof.
  assert (R : running near_wrap).
  { unfold running, TIM.ok. cbn. repeat split; lia. }
  assert (V : valid race_trace near_wrap = true) by (vm_compute; reflexivity).
  split; [exact R|]. split; [exact V|].
  apply (getMonotonic_nondecreasing race_trace R V).
  cbn. lia.
Defined.

(** X18. The self-test of [getMonotonic] in a debug build,
    [assert(prev_usec <= usec)] with [prev_usec] starting at zero, passes at
    every call along every such run. *)
Lemma getMonotonic_selftest_passes tr m :
  running m ->
  valid tr m = true ->
  time_mono (clk m) + USecPerOverflow * (Z.of_nat (irq_count tr) + 2) <= 2 ^ 64 ->
  getMonotonic_selftest 0 (monotonic_readings tr m) = true.
Proof.
  intros Hrun Hv Hb.
  destruct (readings_bounded tr Hrun Hv Hb) as [Hall Hs].
  assert (H0 : 0 <= mono_now m).
  { destruct Hrun as (_ & [_ Hc] & Hm). unfold mono_now, USecPerOverflow.
    destruct (TIM.uif (tim m)); lia. }
  assert (Hall0 : Forall (fun o => 0 <= o) (monotonic_readings tr m)).
  { eapply Forall_impl; [|exact Hall]. cbv beta. intros; lia. }
  clear Hall. revert Hall0 Hs. generalize 0.
  induction (monotonic_readings tr m) as [|o os IH]; intros p Hall Hs.
  - reflexivity.
  - cbn [getMonotonic_selftest]. inversion Hall; subst. inversion Hs; subst.
    apply andb_true_iff. split; [lia|].
    apply IH; [|assumption].
    destruct os as [|o' os']; constructor.
    + match goal with H : HdRel _ _ _ |- _ => inversion H; subst; assumption end.
    + apply Sorted_StronglySorted in Hs; [|intros x y z; apply Z.le_trans].
      inversion Hs; subst.
      match goal with H : Forall _ (o' :: os') |- _ =>
        inversion H; subst end.
      eapply Forall_impl; [|eassumption]. cbv beta. intros; lia.
Qed.

(** ** The overflow handler *)

(** C2. One invocation of the overflow handler adds exactly one period to
    the monotonic accumulator (not zero, not two), and adds one period plus
    the speed correction to the UTC accumulator exactly when the clock is
    synchronized; otherwise the UTC accumulator keeps its value.  The other
    variables of the clock are left alone.  (Accumulators below their 64-bit
    limit, correction within its bound.) *)
Theorem overflow_handler_advance m :
  0 <= time_mono (clk m) ->
  time_mono (clk m) + USecPerOverflow < 2 ^ 64 ->
  0 <= time_utc (clk m) ->
  time_utc (clk m) + USecPerOverflow + MaxUtcSpeedCorrection < 2 ^ 64 ->
  - MaxUtcSpeedCorrection <= utc_correction_usec_per_overflow (clk m)
    <= MaxUtcSpeedCorrection ->
  time_mono (clk (snd (TIMX_IRQHandler m))) = time_mono (clk m) + 65536
  /\ time_mono (clk (snd (TIMX_IRQHandler m))) <> time_mono (clk m)
  /\ time_mono (clk (snd (TIMX_IRQHandler m)))
     <> time_mono (clk m) + 2 * 65536
  /\ (time_utc (clk (snd (TIMX_IRQHandler m)))
      = time_utc (clk m) + 65536 + utc_correction_usec_per_overflow (clk m)
      <-> utc_set (clk m) = true)
  /\ (utc_set (clk m) = false ->
      time_utc (clk (snd (TIMX_IRQHandler m))) = time_utc (clk m))
  /\ initialized (clk (snd (TIMX_IRQHandler m))) = initialized (clk m)
  /\ utc_set (clk (snd (TIMX_IRQHandler m))) = utc_set (clk m)
  /\ utc_jump_cnt (clk (snd (TIMX_IRQHandler m))) = utc_jump_cnt (clk m)
  /\ utc_correction_usec_per_overflow (clk (snd (TIMX_IRQHandler m)))
     = utc_correction_usec_per_overflow (clk m).
Proof.
  unfold USecPerOverflow, MaxUtcSpeedCorrection. intros M0 M1 U0 U1 Hc.
  destruct (handler_fields m) as (G1 & G2 & G3 & G4 & G5 & G6 & G7).
  unfold USecPerOverflow in *.
  rewrite G1, G2, G3, G4, G5, G6.
  rewrite (IntFacts.u64_small (x := time_mono (clk m) + 65536)) by lia.
  rewrite (IntFacts.u32_small
             (x := 65536 + utc_correction_usec_per_overflow (clk m))) by lia.
  rewrite (IntFacts.u64_small (x := time_utc (clk m) + _)) by lia.
  destruct (utc_set (clk m)); repeat split; try lia; try reflexivity;
    try discriminate; intros; lia.
Qed.

Lemma overflow_handler_advance_witness :
  time_mono (clk (snd (TIMX_IRQHandler synced_pending))) = 131072
  /\ time_utc (clk (snd (TIMX_IRQHandler synced_pending))) = 2065539.
Proof.
  refine (let H := overflow_handler_advance synced_pending _ _ _ _ _ in
          conj (proj1 H)
               (proj2 (proj1 (proj2 (proj2 (proj2 H)))) eq_refl));
    unfold synced_pending, USecPerOverflow, MaxUtcSpeedCorrection;
    cbn [clk time_mono time_utc utc_correction_usec_per_overflow]; lia.
Defined.

(** ** The adjuster *)

Lemma offset_applied_iff a m :
  offset_applied (clk m) (clk (snd (adjustUtc a m)))
  <-> (UtcDuration.isZero a && utc_set (clk m) = false
       /\ offset_due a (utc_set (clk m)) = true).
Proof.
  rewrite adjustUtc_eq. cbn [snd clk]. cbv zeta. unfold offset_applied.
  destruct (UtcDuration.isZero a && utc_set (clk m)).
  { split; [intros [H|H]; now elim H | intros [H _]; discriminate]. }
  destruct (offset_due a (utc_set (clk m))).
  - split; [auto|intros _]. cbn [utc_jump_cnt utc_set].
    destruct (utc_set (clk m)).
    + left. apply u32_incr_neq.
    + right. discriminate.
  - split; [intros [H|H]; now elim H | intros [_ H]; discriminate].
Qed.

(** C3, as the claim has it, fails: a correction of 1001 microseconds on a
    synchronized clock exceeds one millisecond, yet [adjustUtc] neither
    counts a jump nor writes the UTC accumulator. *)
Lemma offset_threshold_counterexample :
  ~ (offset_applied (clk synced)
                    (clk (snd (adjustUtc (UtcDuration.fromUSec 1001) synced)))
     <-> (1000 < Z.abs (UtcDuration.toUSec (UtcDuration.fromUSec 1001))
          \/ utc_set (clk synced) = false)).
Proof.
  intros [_ H].
  assert (A : offset_applied
                (clk synced)
                (clk (snd (adjustUtc (UtcDuration.fromUSec 1001) synced)))).
  { apply H. left. cbn. lia. }
  destruct A as [A|A]; apply A; vm_compute; reflexivity.
Qed.

(** C3 (amended). For a 64-bit correction other than the most negative
    value, [adjustUtc] enters the clock value adjustment if and only if the
    magnitude of the correction is at least two whole milliseconds (2000
    microseconds) or the clock is not synchronized yet.  When it does, the
    UTC accumulator is written (1 if the correction is negative and exceeds
    the accumulator in magnitude, the accumulator plus the correction modulo
    [2 ^ 64] otherwise), [utc_set] is set, and the jump count is incremented
    if the clock was synchronized already.  For a smaller correction on a
    synchronized clock only the speed correction can change: the UTC
    accumulator is not written. *)
Theorem offset_step_threshold a m :
  - 2 ^ 63 < UtcDuration.toUSec a < 2 ^ 63 ->
  (offset_applied (clk m) (clk (snd (adjustUtc a m)))
   <-> (2000 <= Z.abs (UtcDuration.toUSec a) \/ utc_set (clk m) = false))
  /\ (2000 <= Z.abs (UtcDuration.toUSec a) \/ utc_set (clk m) = false ->
      time_utc (clk (snd (adjustUtc a m)))
      = (if (UtcDuration.toUSec a <? 0)
            && (- UtcDuration.toUSec a >? time_utc (clk m))
         then 1
         else Int.u64 (time_utc (clk m) + UtcDuration.toUSec a))
      /\ utc_set (clk (snd (adjustUtc a m))) = true
      /\ utc_jump_cnt (clk (snd (adjustUtc a m)))
         = (if utc_set (clk m)
            then Int.u32 (utc_jump_cnt (clk m) + 1)
            else utc_jump_cnt (clk m))
      /\ time_mono (clk (snd (adjustUtc a m))) = time_mono (clk m)
      /\ initialized (clk (snd (adjustUtc a m))) = initialized (clk m))
  /\ (Z.abs (UtcDuration.toUSec a) < 2000 ->
      utc_set (clk m) = true ->
      time_utc (clk (snd (adjustUtc a m))) = time_utc (clk m)
      /\ utc_jump_cnt (clk (snd (adjustUtc a m))) = utc_jump_cnt (clk m)
      /\ utc_set (clk (snd (adjustUtc a m))) = true
      /\ time_mono (clk (snd (adjustUtc a m))) = time_mono (clk m)
      /\ initialized (clk (snd (adjustUtc a m))) = initialized (clk m)).
Proof.
  intros Hr. pose proof (toMSec_getAbs a Hr) as Hms.
  split; [|split].
  - rewrite offset_applied_iff. unfold offset_due, UtcDuration.isZero.
    destruct (utc_set (clk m)); cbn [negb].
    + rewrite orb_false_r, andb_true_r, Hms, Z.eqb_neq.
      split; [intros [_ H]; now left | intros [H|H]; [split; [lia|exact H] | discriminate]].
    + rewrite orb_true_r, andb_false_r. split; auto.
  - intros Hcond.
    assert (Hz : UtcDuration.isZero a && utc_set (clk m) = false).
    { unfold UtcDuration.isZero. destruct Hcond as [H|H].
      - assert (E : (UtcDuration.toUSec a =? 0) = false) by lia.
        now rewrite E.
      - rewrite H. apply andb_false_r. }
    assert (Hd : offset_due a (utc_set (clk m)) = true).
    { unfold offset_due. destruct Hcond as [H|H].
      - apply Hms in H. rewrite H. reflexivity.
      - rewrite H. apply orb_true_r. }
    rewrite adjustUtc_eq. cbn [snd clk]. cbv zeta. rewrite Hz, Hd.
    cbn [time_utc utc_set utc_jump_cnt time_mono initialized].
    repeat split.
    unfold offset_value. rewrite IntFacts.u64_add_u64.
    destruct (UtcDuration.toUSec a <? 0) eqn:L; cbn [andb]; [|reflexivity].
    rewrite IntFacts.u64_neg_s64 by lia. reflexivity.
  - intros Hsmall Hus.
    rewrite adjustUtc_eq. cbn [snd clk]. cbv zeta. rewrite Hus.
    destruct (UtcDuration.isZero a && true); [rewrite Hus; auto|].
    unfold offset_due. cbn [negb]. rewrite orb_false_r.
    destruct (UtcDuration.toMSec (UtcDuration.getAbs a) >? 1) eqn:E.
    + pose proof (proj1 Hms eq_refl). lia.
    + cbn. auto.
Qed.

Lemma offset_step_threshold_witness :
  time_utc (clk (snd (adjustUtc (UtcDuration.fromUSec 1001) synced)))
  = time_utc (clk synced)
  /\ offset_applied
       (clk synced)
       (clk (snd (adjustUtc (UtcDuration.fromUSec (- 2000)) synced)))
  /\ time_utc (clk (snd (adjustUtc (UtcDuration.fromUSec (- 2000)) synced)))
     = 1998000.
Proof.
  split; [|split].
  - refine (proj1 (proj2 (proj2 (offset_step_threshold
                                   (UtcDuration.fromUSec 1001) synced _)) _ _)).
    + cbn. lia.
    + cbn. lia.
    + vm_compute. reflexivity.
  - refine (proj2 (proj1 (offset_step_threshold (UtcDuration.fromUSec (- 2000))
                                                 synced _)) _).
    + cbn. lia.
    + left. cbn. lia.
  - refine (proj1 (proj1 (proj2 (offset_step_threshold
                                   (UtcDuration.fromUSec (- 2000)) synced _))
                         _)).
    + cbn. lia.
    + left. cbn. lia.
Defined.

(** C4, as the claim has it, fails: a negative correction whose magnitude
    equals the UTC accumulator is not clamped and takes the accumulator to
    zero. *)
Lemma offset_clamp_counterexample :
  UtcDuration.toUSec (UtcDuration.fromUSec (- 2000000)) < 0
  /\ offset_applied
       (clk synced)
       (clk (snd (adjustUtc (UtcDuration.fromUSec (- 2000000)) synced)))
  /\ ~ (0 < time_utc
             (clk (snd (adjustUtc (UtcDuration.fromUSec (- 2000000)) synced)))).
Proof.
  split; [cbn; lia|]. split.
  - left. vm_compute. discriminate.
  - vm_compute. discriminate.
Qed.

(** C4 (amended). When a negative 64-bit correction reaches the clock value
    adjustment, the UTC accumulator becomes 1 if the magnitude of the
    correction exceeds it, and is reduced by the magnitude otherwise; it
    never wraps below zero, and it stays strictly positive whenever the
    magnitude differs from the accumulator. *)
Theorem offset_negative_clamp a m :
  Int.in_s64 (UtcDuration.toUSec a) ->
  UtcDuration.toUSec a < 0 ->
  0 <= time_utc (clk m) < 2 ^ 64 ->
  offset_applied (clk m) (clk (snd (adjustUtc a m))) ->
  (time_utc (clk m) < - UtcDuration.toUSec a ->
   time_utc (clk (snd (adjustUtc a m))) = 1)
  /\ (- UtcDuration.toUSec a <= time_utc (clk m) ->
      time_utc (clk (snd (adjustUtc a m)))
      = time_utc (clk m) + UtcDuration.toUSec a)
  /\ 0 <= time_utc (clk (snd (adjustUtc a m)))
  /\ (- UtcDuration.toUSec a <> time_utc (clk m) ->
      0 < time_utc (clk (snd (adjustUtc a m)))).
Proof.
  unfold Int.in_s64. intros Hr Hneg Hu Happ.
  apply offset_applied_iff in Happ. destruct Happ as [Hz Hd].
  rewrite adjustUtc_eq. cbn [snd clk]. cbv zeta. rewrite Hz, Hd.
  cbn [time_utc]. unfold offset_value.
  rewrite IntFacts.u64_neg_s64 by lia.
  rewrite IntFacts.u64_add_u64.
  assert (L : (UtcDuration.toUSec a <? 0) = true) by lia. rewrite L.
  cbn [andb].
  destruct (- UtcDuration.toUSec a >? time_utc (clk m)) eqn:E.
  - repeat split; intros; lia.
  - rewrite IntFacts.u64_small by lia.
    repeat split; intros; lia.
Qed.

Lemma offset_negative_clamp_witness :
  time_utc (clk (snd (adjustUtc (UtcDuration.fromUSec (- 3000000)) synced))) = 1.
Proof.
  refine (proj1 (@offset_negative_clamp (UtcDuration.fromUSec (- 3000000))
                                        synced _ _ _ _) _).
  - unfold Int.in_s64. cbn. lia.
  - cbn. lia.
  - vm_compute. split; [discriminate | reflexivity].
  - left. vm_compute. discriminate.
  - vm_compute. reflexivity.
Defined.

(** C5. In every reachable state the speed correction lies within
    [-500, +500], and a call of [adjustUtc] moves it by at most one: never
    down for a positive correction, never up for a negative one, and on a
    synchronized clock up by one for a positive correction and down by one
    for a negative one, stopping at the bound. *)
Theorem speed_correction_bounded a m :
  reachable m ->
  Z.abs (utc_correction_usec_per_overflow (clk (snd (adjustUtc a m)))
         - utc_correction_usec_per_overflow (clk m)) <= 1
  /\ - 500 <= utc_correction_usec_per_overflow (clk m) <= 500
  /\ - 500 <= utc_correction_usec_per_overflow (clk (snd (adjustUtc a m))) <= 500
  /\ (0 < UtcDuration.toUSec a ->
      utc_correction_usec_per_overflow (clk m)
      <= utc_correction_usec_per_overflow (clk (snd (adjustUtc a m))))
  /\ (UtcDuration.toUSec a < 0 ->
      utc_correction_usec_per_overflow (clk (snd (adjustUtc a m)))
      <= utc_correction_usec_per_overflow (clk m))
  /\ (utc_set (clk m) = true ->
      utc_correction_usec_per_overflow (clk (snd (adjustUtc a m)))
      = if 0 <? UtcDuration.toUSec a
        then Z.min (utc_correction_usec_per_overflow (clk m) + 1) 500
        else if UtcDuration.toUSec a <? 0
             then Z.max (utc_correction_usec_per_overflow (clk m) - 1) (- 500)
             else utc_correction_usec_per_overflow (clk m)).
Proof.
  intros Hr. destruct (reachable_inv Hr) as [(Hc & _ & _ & _ & Hz) _].
  pose proof (speed_trim_spec a Hc) as Hs.
  rewrite adjustUtc_eq. cbn [snd clk]. cbv zeta.
  unfold MaxUtcSpeedCorrection, UtcDuration.isZero, offset_due in *.
  set (c := utc_correction_usec_per_overflow (clk m)) in *.
  set (d := UtcDuration.toUSec a) in *.
  destruct (utc_set (clk m)) eqn:Us.
  - rewrite andb_true_r. destruct (d =? 0) eqn:E0.
    + fold c. destruct (0 <? d) eqn:Ep; [lia|].
      destruct (d <? 0) eqn:En; [lia|].
      repeat split; intros; lia.
    + assert (Ht : utc_correction_usec_per_overflow
                     (if (UtcDuration.toMSec (UtcDuration.getAbs a) >? 1)
                         || negb true
                      then mkClock (initialized (clk m)) true
                                   (Int.u32 (utc_jump_cnt (clk m) + 1))
                                   (speed_trim a c) (time_mono (clk m))
                                   (offset_value a (time_utc (clk m)))
                      else set_utc_correction (speed_trim a c) (clk m))
                   = speed_trim a c).
      { destruct (_ || _); reflexivity. }
      rewrite Ht, Hs.
      destruct (0 <? d) eqn:Ep.
      * repeat split; intros; lia.
      * destruct (d <? 0) eqn:En; [|lia].
        repeat split; intros; lia.
  - rewrite andb_false_r, orb_true_r. cbn [utc_correction_usec_per_overflow].
    destruct (Hz eq_refl) as (_ & Hc0 & _). fold c in Hc0.
    repeat split; intros; try lia; discriminate.
Qed.

Lemma speed_correction_bounded_witness :
  utc_correction_usec_per_overflow
    (clk (snd (adjustUtc (UtcDuration.fromUSec 50) synced))) = 1.
Proof.
  exact (proj2 (proj2 (proj2 (proj2 (proj2
           (speed_correction_bounded (UtcDuration.fromUSec 50)
                                     synced_reachable))))) eq_refl).
Defined.

Lemma exec_utc_set_kept e m :
  utc_set (clk m) = true -> utc_set (clk (exec e m)) = true.
Proof.
  intros H. destruct e; cbn [exec].
  - exact H.
  - destruct (handler_fields m) as (_ & G2 & _). now rewrite G2.
  - unfold init. run_monad. destruct (initialized (clk m)); exact H.
  - rewrite getMonotonic_eq. cbn [snd]. now rewrite sample_clk.
  - rewrite getUtc_eq, H. cbn [snd]. now rewrite sample_clk.
  - rewrite getUtcUSecFromCanInterrupt_eq, H. now rewrite sample_clk.
  - rewrite adjustUtc_eq. cbn [snd clk]. cbv zeta. rewrite H.
    destruct (UtcDuration.isZero adjustment && true); [exact H|].
    destruct (offset_due adjustment true); [reflexivity | exact H].
  - exact H.
  - exact H.
Qed.

Lemma exec_utc_set_frame e m :
  (forall a, e <> CallAdjustUtc a) ->
  utc_set (clk (exec e m)) = utc_set (clk m).
Proof.
  intros Hne. destruct e; cbn [exec]; try reflexivity.
  - now destruct (handler_fields m) as (_ & G2 & _).
  - unfold init. run_monad. destruct (initialized (clk m)); reflexivity.
  - rewrite getMonotonic_eq. cbn [snd]. now rewrite sample_clk.
  - rewrite getUtc_eq. destruct (utc_set (clk m)) eqn:E; cbn [snd];
      [now rewrite sample_clk | exact E].
  - rewrite getUtcUSecFromCanInterrupt_eq.
    destruct (utc_set (clk m)) eqn:E; cbn [snd];
      [now rewrite sample_clk | exact E].
  - now elim (Hne adjustment).
Qed.

(** C6. The first call of [adjustUtc] on an initialized clock that is not
    synchronized yet, whatever the correction, sets [utc_set], leaves the
    speed correction at zero and leaves the jump count unchanged at zero.
    No event takes [utc_set] back to false, and no event other than a call
    of [adjustUtc] changes it: the clock becomes synchronized once. *)
Theorem first_adjustUtc_synchronizes a e m :
  reachable m ->
  initialized (clk m) = true ->
  (utc_set (clk m) = false ->
   utc_set (clk (snd (adjustUtc a m))) = true
   /\ utc_correction_usec_per_overflow (clk (snd (adjustUtc a m))) = 0
   /\ utc_jump_cnt (clk (snd (adjustUtc a m))) = utc_jump_cnt (clk m)
   /\ utc_jump_cnt (clk (snd (adjustUtc a m))) = 0)
  /\ (utc_set (clk m) = true -> utc_set (clk (exec e m)) = true)
  /\ ((forall a', e <> CallAdjustUtc a') ->
      utc_set (clk (exec e m)) = utc_set (clk m)).
Proof.
  intros Hr Hi. split; [|split].
  - intros Hus. destruct (reachable_inv Hr) as [(_ & _ & _ & _ & Hz) _].
    destruct (Hz Hus) as (Hj & _ & _).
    rewrite adjustUtc_eq. cbn [snd clk]. cbv zeta. unfold offset_due.
    rewrite Hus, andb_false_r, orb_true_r. cbn. auto.
  - apply exec_utc_set_kept.
  - apply exec_utc_set_frame.
Qed.

Lemma first_adjustUtc_synchronizes_witness :
  utc_set (clk (snd (adjustUtc (UtcDuration.fromUSec 0) started))) = true
  /\ utc_jump_cnt (clk (snd (adjustUtc (UtcDuration.fromUSec 0) started))) = 0.
Proof.
  refine (let H := proj1 (first_adjustUtc_synchronizes
                            (UtcDuration.fromUSec 0) Tick
                            started_reachable eq_refl) eq_refl in
          conj (proj1 H) (proj2 (proj2 (proj2 H)))).
Defined.

(** ** The readers *)

(** C7. For a speed correction within [-500, +500],
    [getUtcSpeedCorrectionPPM] returns the exact product of the correction
    and one million, divided by 65536 with truncation toward zero: no
    intermediate or final value leaves its integer type.  For a correction
    of 500 the result is 7629. *)
Theorem getUtcSpeedCorrectionPPM_exact m :
  - 500 <= utc_correction_usec_per_overflow (clk m) <= 500 ->
  fst (getUtcSpeedCorrectionPPM m)
  = Z.quot (utc_correction_usec_per_overflow (clk m) * 1000000) 65536
  /\ (utc_correction_usec_per_overflow (clk m) = 500 ->
      fst (getUtcSpeedCorrectionPPM m) = 7629)
  /\ - 7629 <= fst (getUtcSpeedCorrectionPPM m) <= 7629.
Proof.
  intros Hc. unfold getUtcSpeedCorrectionPPM. run_monad.
  set (c := utc_correction_usec_per_overflow (clk m)) in *.
  unfold USecPerOverflow.
  rewrite (IntFacts.s32_small (x := c * 1000000)) by lia.
  rewrite IntFacts.s64_small by lia.
  assert (Hq : - 7629 <= Z.quot (c * 1000000) 65536 <= 7629).
  { destruct (Z_le_gt_dec 0 c) as [Hp|Hn].
    - rewrite Z.quot_div_nonneg by lia.
      split.
      + apply Z.le_trans with 0; [lia|]. apply Z.div_pos; lia.
      + assert (c * 1000000 / 65536 < 7630)
          by (apply Z.div_lt_upper_bound; lia). lia.
    - replace (c * 1000000) with (- (- c * 1000000)) by lia.
      rewrite Z.quot_opp_l by lia.
      rewrite Z.quot_div_nonneg by lia.
      assert (0 <= - c * 1000000 / 65536) by (apply Z.div_pos; lia).
      assert (- c * 1000000 / 65536 < 7630)
        by (apply Z.div_lt_upper_bound; lia). lia. }
  rewrite IntFacts.s32_small by lia.
  split; [reflexivity|]. split; [|exact Hq].
  intros E. rewrite E. reflexivity.
Qed.

Lemma getUtcSpeedCorrectionPPM_exact_witness :
  fst (getUtcSpeedCorrectionPPM
         (mkMachine (mkClock true true 0 500 0 0) TIM.reset)) = 7629.
Proof.
  refine (proj1 (proj2 (@getUtcSpeedCorrectionPPM_exact
                          (mkMachine (mkClock true true 0 500 0 0) TIM.reset) _))
                eq_refl).
  cbn. lia.
Defined.

(** C8. A zero adjustment on a synchronized clock is a no-op: [adjustUtc]
    returns the machine as it was, every variable of the clock included. *)
Theorem adjustUtc_zero_noop m :
  utc_set (clk m) = true ->
  adjustUtc (UtcDuration.fromUSec 0) m = (tt, m).
Proof.
  intros H. rewrite adjustUtc_eq. cbv zeta. rewrite H.
  cbn [UtcDuration.isZero UtcDuration.toUSec Z.eqb andb].
  destruct m; reflexivity.
Qed.

Lemma adjustUtc_zero_noop_witness :
  utc_set (clk synced) = true
  /\ adjustUtc (UtcDuration.fromUSec 0) synced = (tt, synced).
Proof.
  split; [reflexivity | exact (@adjustUtc_zero_noop synced eq_refl)].
Defined.

(** C9. On a clock that is not synchronized, [getUtc] returns the zero
    timestamp and [getUtcUSecFromCanInterrupt] returns zero, without
    sampling.  On a synchronized clock both return the same value: the UTC
    accumulator plus the counter, with one period added and the counter read
    again when the overflow flag is found set. *)
Theorem getUtc_same_sample d m :
  if utc_set (clk m)
  then UtcTime.toUSec (fst (getUtc d m)) = fst (getUtcUSecFromCanInterrupt d m)
       /\ snd (getUtc d m) = snd (getUtcUSecFromCanInterrupt d m)
       /\ fst (getUtcUSecFromCanInterrupt d m)
          = (let r1 := TIM.elapse (before_cnt d) (tim m) in
             let r2 := TIM.elapse (before_sr d) r1 in
             let r3 := TIM.elapse (before_recnt d) r2 in
             if TIM.uif r2
             then Int.u64 (Int.u64 (time_utc (clk m) + 65536) + TIM.CNT r3)
             else Int.u64 (time_utc (clk m) + TIM.CNT r1))
  else getUtc d m = (UtcTime.zero, m)
       /\ getUtcUSecFromCanInterrupt d m = (0, m).
Proof.
  rewrite getUtc_eq, getUtcUSecFromCanInterrupt_eq.
  destruct (utc_set (clk m)); [|split; reflexivity].
  split; [reflexivity|]. split; [reflexivity|].
  pose proof (sample_eq time_utc d m) as E. cbv zeta in E. rewrite E. cbv zeta.
  destruct (TIM.uif _); reflexivity.
Qed.

(** C10. The read operations leave every variable of the clock as it was:
    [getUtc], [getUtcUSecFromCanInterrupt], [getUtcSpeedCorrectionPPM] and
    [getUtcAjdustmentJumpCount], and the sampler itself, whose compensation
    for a pending overflow goes into the returned value only. *)
Theorem readers_leave_clock d value m :
  clk (snd (getUtc d m)) = clk m
  /\ clk (snd (getUtcUSecFromCanInterrupt d m)) = clk m
  /\ snd (getUtcSpeedCorrectionPPM m) = m
  /\ snd (getUtcAjdustmentJumpCount m) = m
  /\ clk (snd (sampleFromCriticalSection value d m)) = clk m.
Proof.
  rewrite getUtc_eq, getUtcUSecFromCanInterrupt_eq.
  repeat split; try apply sample_clk;
    destruct (utc_set (clk m)); cbn [snd]; try reflexivity; apply sample_clk.
Qed.

(** A read with the overflow pending returns the accumulator plus one
    period, and the accumulator is as before. *)
Example pending_read_compensates :
  fst (getMonotonic no_latency wrap_pending) = MonotonicTime.fromUSec 65536
  /\ time_mono (clk (snd (getMonotonic no_latency wrap_pending))) = 0
  /\ time_mono (clk wrap_pending) = 0.
Proof. vm_compute. repeat split; reflexivity. Qed.

(** ** Initialization *)

Lemma init_fresh m :
  initialized (clk m) = false ->
  init m = (tt, mkMachine (set_initialized true (clk m))
                          (TIM.mk TIM.CR1_CEN TIM.DIER_UIE 0 0 83 65535)).
Proof.
  intros H. unfold init. run_monad. rewrite H. reflexivity.
Qed.

(** X1. On a clock that is not initialized, [init] marks it initialized and
    leaves the timer counting microseconds from zero with a period of
    [USecPerOverflow]: prescaler at one megahertz, counter enabled, overflow
    interrupt enabled, no overflow pending.  The accumulators and the
    adjuster's variables are not touched. *)
Theorem init_starts_timer m :
  initialized (clk m) = false ->
  initialized (clk (snd (init m))) = true
  /\ TIM.ARR (tim (snd (init m))) + 1 = USecPerOverflow
  /\ (TIM.PSC (tim (snd (init m))) + 1) * 1000000 = TIMX_INPUT_CLOCK
  /\ TIM.CNT (tim (snd (init m))) = 0
  /\ TIM.uif (tim (snd (init m))) = false
  /\ TIM.uie (tim (snd (init m))) = true
  /\ TIM.cen (tim (snd (init m))) = true
  /\ TIM.ok (tim (snd (init m)))
  /\ set_initialized false (clk (snd (init m))) = clk m.
Proof.
  intros H. rewrite (init_fresh m H). cbn [snd clk tim].
  repeat split; try reflexivity; try (cbn [TIM.CNT]; lia).
  destruct m as [[i us j c tm tu] r]. cbn in *. now subst.
Qed.

Lemma init_starts_timer_witness :
  TIM.ARR (tim (snd (init power_on))) + 1 = USecPerOverflow
  /\ TIM.uie (tim (snd (init power_on))) = true.
Proof.
  refine (let H := @init_starts_timer power_on eq_refl in
          conj (proj1 (proj2 H))
               (proj1 (proj2 (proj2 (proj2 (proj2 (proj2 H))))))).
Defined.

(** X2. [init] is idempotent: on an initialized clock it changes nothing,
    not even a running counter or a pending overflow, and a second call in a
    row is a no-op. *)
Theorem init_idempotent m :
  (initialized (clk m) = true -> init m = (tt, m))
  /\ init (snd (init m)) = (tt, snd (init m)).
Proof.
  split; [apply init_running|].
  apply init_running.
  destruct (initialized (clk m)) eqn:E.
  - now rewrite (init_running m E).
  - now rewrite (init_fresh m E).
Qed.

Lemma init_idempotent_witness :
  init synced_pending = (tt, synced_pending).
Proof. exact (proj1 (init_idempotent synced_pending) eq_refl). Defined.

(** X3. [SystemClock::instance] does what [init] does: it initializes the
    clock on first use and leaves an initialized clock as it is; after it
    the clock is initialized. *)
Theorem instance_initializes m :
  instance m = init m
  /\ initialized (clk (snd (instance m))) = true
  /\ (initialized (clk m) = true -> instance m = (tt, m)).
Proof.
  assert (E : instance m = init m).
  { unfold instance. run_monad.
    destruct (initialized (clk m)) eqn:H; cbn [negb]; [|reflexivity].
    now rewrite (init_running m H). }
  rewrite E. split; [reflexivity|]. split.
  - destruct (initialized (clk m)) eqn:H.
    + now rewrite (init_running m H).
    + now rewrite (init_fresh m H).
  - apply init_running.
Qed.

Lemma instance_initializes_witness :
  instance synced_pending = (tt, synced_pending).
Proof.
  exact (proj2 (proj2 (instance_initializes synced_pending)) eq_refl).
Defined.

(** ** The timer under the driver's control *)

Lemma tick_ctrl r :
  TIM.DIER (TIM.tick r) = TIM.DIER r /\ TIM.CR1 (TIM.tick r) = TIM.CR1 r.
Proof.
  unfold TIM.tick. destruct (TIM.cen r); [|auto].
  destruct (TIM.CNT r =? TIM.ARR r); auto.
Qed.

Lemma elapse_ctrl n : forall r,
  TIM.DIER (TIM.elapse n r) = TIM.DIER r /\ TIM.CR1 (TIM.elapse n r) = TIM.CR1 r.
Proof.
  induction n as [|n IH]; intros r; cbn [TIM.elapse]; [auto|].
  destruct (IH (TIM.tick r)) as [H1 H2]. destruct (tick_ctrl r) as [T1 T2].
  split; congruence.
Qed.

Lemma sample_ctrl value d m :
  TIM.DIER (tim (snd (sampleFromCriticalSection value d m))) = TIM.DIER (tim m)
  /\ TIM.CR1 (tim (snd (sampleFromCriticalSection value d m))) = TIM.CR1 (tim m).
Proof.
  pose proof (sample_eq value d m) as E. cbv zeta in E. rewrite E.
  destruct (TIM.uif _); cbn [snd tim].
  - destruct (elapse_ctrl (before_recnt d)
                (TIM.elapse (before_sr d) (TIM.elapse (before_cnt d) (tim m))))
      as [A1 A2].
    destruct (elapse_ctrl (before_sr d) (TIM.elapse (before_cnt d) (tim m)))
      as [B1 B2].
    destruct (elapse_ctrl (before_cnt d) (tim m)) as [C1 C2].
    split; congruence.
  - destruct (elapse_ctrl (before_sr d) (TIM.elapse (before_cnt d) (tim m)))
      as [B1 B2].
    destruct (elapse_ctrl (before_cnt d) (tim m)) as [C1 C2].
    split; congruence.
Qed.

(** Every event other than the first [init] leaves the control registers and
    [initialized] alone. *)
Lemma exec_ctrl e m :
  initialized (clk m) = true \/ e <> CallInit ->
  TIM.DIER (tim (exec e m)) = TIM.DIER (tim m)
  /\ TIM.CR1 (tim (exec e m)) = TIM.CR1 (tim m)
  /\ initialized (clk (exec e m)) = initialized (clk m).
Proof.
  intros H. destruct e; cbn [exec].
  - destruct (tick_ctrl (tim m)). cbn. auto.
  - destruct (handler_fields m) as (G1 & _ & _ & _ & _ & _ & G7).
    rewrite G1, G7. cbn. auto.
  - destruct H as [H|H]; [|now elim H]. rewrite (init_running m H). auto.
  - rewrite getMonotonic_eq. cbn [snd]. rewrite sample_clk.
    destruct (sample_ctrl time_mono d m). auto.
  - rewrite getUtc_eq. destruct (utc_set (clk m)); cbn [snd]; [|auto].
    rewrite sample_clk. destruct (sample_ctrl time_utc d m). auto.
  - rewrite getUtcUSecFromCanInterrupt_eq.
    destruct (utc_set (clk m)); cbn [snd]; [|auto].
    rewrite sample_clk. destruct (sample_ctrl time_utc d m). auto.
  - destruct (adjustUtc_frame adjustment m) as (F1 & F2 & _).
    rewrite F1, F2. auto.
  - auto.
  - auto.
Qed.

Lemma attainable_ctrl m :
  attainable m ->
  TIM.DIER (tim m) = (if initialized (clk m) then TIM.DIER_UIE else 0)
  /\ TIM.CR1 (tim m) = (if initialized (clk m) then TIM.CR1_CEN else 0).
Proof.
  induction 1 as [|e m Hr [IH1 IH2]].
  - split; reflexivity.
  - destruct (initialized (clk m)) eqn:Hi.
    + destruct (@exec_ctrl e m (or_introl Hi)) as (E1 & E2 & E3).
      rewrite E1, E2, E3, Hi. split; assumption.
    + assert (Hd : e = CallInit \/ e <> CallInit)
        by (destruct e; (now left) || (right; discriminate)).
      destruct Hd as [-> | Hne].
      * cbn [exec]. rewrite (init_fresh m Hi). split; reflexivity.
      * destruct (@exec_ctrl e m (or_intror Hne)) as (E1 & E2 & E3).
        rewrite E1, E2, E3, Hi. split; assumption.
Qed.

(** X4. Whatever happens to the machine from power-on, in any order and
    with calls made before [init] included, the overflow interrupt and the
    counter are enabled exactly when the clock is initialized.  So the
    assertion of the sampler on [DIER] holds whenever the clock is
    initialized, and the timer interrupt can be served, pending and enabled,
    only on an initialized clock, as the handler asserts. *)
Theorem attainable_assertions m :
  attainable m ->
  TIM.uie (tim m) = initialized (clk m)
  /\ TIM.cen (tim m) = initialized (clk m)
  /\ (initialized (clk m) = true ->
      TIM.uie (tim m) = true /\ TIM.cen (tim m) = true)
  /\ (TIM.uif (tim m) && TIM.uie (tim m) = true -> initialized (clk m) = true).
Proof.
  intros Hr. destruct (attainable_ctrl Hr) as [D C].
  assert (U : TIM.uie (tim m) = initialized (clk m)).
  { unfold TIM.uie. rewrite D. destruct (initialized (clk m)); reflexivity. }
  assert (E : TIM.cen (tim m) = initialized (clk m)).
  { unfold TIM.cen. rewrite C. destruct (initialized (clk m)); reflexivity. }
  split; [exact U|]. split; [exact E|]. split.
  - intros Hi. rewrite U, E. split; exact Hi.
  - intros Hal. apply andb_true_iff in Hal. destruct Hal as [_ Hal].
    rewrite <- U. exact Hal.
Qed.

Lemma attainable_assertions_witness :
  TIM.uie (tim (run [CallAdjustUtc (UtcDuration.fromUSec 5000); Tick;
                     CallInit; Tick] power_on)) = true.
Proof.
  refine (proj1 (proj1 (proj2 (proj2
           (@attainable_assertions
              (run [CallAdjustUtc (UtcDuration.fromUSec 5000); Tick;
                    CallInit; Tick] power_on) _))) _)).
  - exact (att_step Tick (att_step CallInit (att_step Tick
             (att_step (CallAdjustUtc (UtcDuration.fromUSec 5000))
                       att_power_on)))).
  - vm_compute. reflexivity.
Defined.

(** ** How the operations compose *)

(** X5. The UTC adjustment never touches the monotonic time base: a call of
    [getMonotonic] returns the same value and leaves the same timer state
    whether or not [adjustUtc] ran before it. *)
Theorem adjustUtc_keeps_monotonic a d m :
  fst (getMonotonic d (snd (adjustUtc a m))) = fst (getMonotonic d m)
  /\ tim (snd (getMonotonic d (snd (adjustUtc a m))))
     = tim (snd (getMonotonic d m))
  /\ mono_now (snd (adjustUtc a m)) = mono_now m.
Proof.
  destruct (adjustUtc_frame a m) as (F1 & _ & F3).
  rewrite !getMonotonic_eq. cbn [fst snd].
  pose proof (sample_eq time_mono d (snd (adjustUtc a m))) as E1.
  pose proof (sample_eq time_mono d m) as E2. cbv zeta in E1, E2.
  rewrite F1, F3 in E1. rewrite E1, E2. unfold mono_now. rewrite F1, F3.
  destruct (TIM.uif (TIM.elapse (before_sr d)
                                (TIM.elapse (before_cnt d) (tim m))));
    cbn [fst snd tim]; repeat split; reflexivity.
Qed.

(** X6. Serving the pending overflow is invisible to [getMonotonic]: with
    the overflow flag set, a read just before the handler and a read just
    after it return the same value.  The period the sampler adds on its own
    is the one the handler then adds to the accumulator. *)
Theorem handler_invisible_to_getMonotonic m :
  TIM.uif (tim m) = true ->
  fst (getMonotonic no_latency (snd (TIMX_IRQHandler m)))
  = fst (getMonotonic no_latency m).
Proof.
  intros Hu.
  destruct (handler_fields m) as (_ & _ & _ & _ & G5 & _ & G7).
  rewrite !getMonotonic_eq. cbn [fst].
  pose proof (sample_eq time_mono no_latency (snd (TIMX_IRQHandler m))) as E1.
  pose proof (sample_eq time_mono no_latency m) as E2.
  cbv zeta in E1, E2. cbn [no_latency before_cnt before_sr before_recnt TIM.elapse]
    in E1, E2.
  rewrite E1, E2, G5, G7, TIMFacts.uif_clear, Hu. reflexivity.
Qed.

Lemma handler_invisible_to_getMonotonic_witness :
  fst (getMonotonic no_latency (snd (TIMX_IRQHandler synced_pending)))
  = fst (getMonotonic no_latency synced_pending).
Proof. exact (@handler_invisible_to_getMonotonic synced_pending eq_refl). Defined.

(** X7. Serving the pending overflow shifts the UTC reading by the speed
    correction: on a synchronized clock with the overflow flag set, a read
    of [getUtc] just after the handler returns the value of a read just
    before it plus [utc_correction_usec_per_overflow].  With a negative
    correction the later reading is the smaller one. *)
Theorem handler_shifts_getUtc_by_correction m :
  utc_set (clk m) = true ->
  TIM.uif (tim m) = true ->
  TIM.ok (tim m) ->
  - MaxUtcSpeedCorrection <= utc_correction_usec_per_overflow (clk m)
    <= MaxUtcSpeedCorrection ->
  0 <= time_utc (clk m) ->
  time_utc (clk m) + 2 * USecPerOverflow + MaxUtcSpeedCorrection <= 2 ^ 64 ->
  UtcTime.toUSec (fst (getUtc no_latency (snd (TIMX_IRQHandler m))))
  = UtcTime.toUSec (fst (getUtc no_latency m))
    + utc_correction_usec_per_overflow (clk m).
Proof.
  unfold MaxUtcSpeedCorrection, USecPerOverflow.
  intros Hs Hu [_ Hc] Hcorr H0 Hb.
  destruct (handler_fields m) as (_ & G2 & _ & _ & _ & G6 & G7).
  rewrite !getUtc_eq, G2, Hs. cbn [fst UtcTime.toUSec].
  pose proof (sample_eq time_utc no_latency (snd (TIMX_IRQHandler m))) as E1.
  pose proof (sample_eq time_utc no_latency m) as E2.
  cbv zeta in E1, E2. cbn [no_latency before_cnt before_sr before_recnt TIM.elapse]
    in E1, E2.
  rewrite E1, E2, G6, G7, Hs, TIMFacts.uif_clear, Hu. cbn [fst].
  unfold USecPerOverflow.
  replace (TIM.CNT (TIM.write_SR (Int.u32 (Z.lnot TIM.SR_UIF)) (tim m)))
    with (TIM.CNT (tim m)) by reflexivity.
  rewrite (IntFacts.u32_small
             (x := 65536 + utc_correction_usec_per_overflow (clk m))) by lia.
  rewrite (IntFacts.u64_small
             (x := time_utc (clk m)
                   + (65536 + utc_correction_usec_per_overflow (clk m)))) by lia.
  rewrite (IntFacts.u64_small (x := time_utc (clk m) + 65536)) by lia.
  rewrite !IntFacts.u64_small by lia. lia.
Qed.

Lemma handler_shifts_getUtc_by_correction_witness :
  UtcTime.toUSec (fst (getUtc no_latency (snd (TIMX_IRQHandler synced_pending))))
  = UtcTime.toUSec (fst (getUtc no_latency synced_pending)) + 3.
Proof.
  refine (@handler_shifts_getUtc_by_correction synced_pending
            eq_refl eq_refl _ _ _ _);
    unfold synced_pending, TIM.ok, MaxUtcSpeedCorrection, USecPerOverflow;
    cbn [clk tim TIM.ARR TIM.CNT time_utc utc_correction_usec_per_overflow];
    lia.
Defined.

(** ** Monotonic time counts the timer cycles *)

Lemma cen_same r r' : TIM.CR1 r' = TIM.CR1 r -> TIM.cen r' = TIM.cen r.
Proof. unfold TIM.cen. now intros ->. Qed.

Lemma tick_exact v r :
  TIM.ok r -> TIM.tick_allowed r = true -> TIM.cen r = true ->
  TIM.now v (TIM.tick r) = TIM.now v r + 1.
Proof.
  unfold TIM.ok, TIM.tick_allowed, TIM.now, TIM.tick, USecPerOverflow.
  intros [Ha Hc] Hal Hcen. rewrite Hcen in *.
  destruct (TIM.CNT r =? TIM.ARR r) eqn:E.
  - apply Z.eqb_eq in E. rewrite TIMFacts.uif_raise.
    destruct (TIM.uif r); cbn in *; [discriminate | lia].
  - replace (TIM.uif (TIM.mk (TIM.CR1 r) (TIM.DIER r) (TIM.SR r)
                             (TIM.CNT r + 1) (TIM.PSC r) (TIM.ARR r)))
      with (TIM.uif r) by reflexivity.
    cbn [TIM.CNT]. destruct (TIM.uif r); lia.
Qed.

Lemma elapse_exact v n : forall r,
  TIM.ok r -> TIM.elapse_allowed n r = true -> TIM.cen r = true ->
  TIM.now v (TIM.elapse n r) = TIM.now v r + Z.of_nat n.
Proof.
  induction n as [|n IH]; intros r Hok Hal Hcen.
  - cbn. lia.
  - cbn [TIM.elapse TIM.elapse_allowed] in *.
    apply andb_true_iff in Hal. destruct Hal as [H1 H2].
    rewrite IH; try assumption.
    + rewrite (tick_exact v Hok H1 Hcen). lia.
    + now apply TIMFacts.tick_ok.
    + rewrite (@cen_same _ _ (proj2 (tick_ctrl r))). exact Hcen.
Qed.

Lemma elapse_cen n r : TIM.cen (TIM.elapse n r) = TIM.cen r.
Proof. apply cen_same. apply elapse_ctrl. Qed.

Lemma sample_exact v value d m :
  TIM.ok (tim m) ->
  sample_allowed d (tim m) = true ->
  TIM.cen (tim m) = true ->
  TIM.now v (tim (snd (sampleFromCriticalSection value d m)))
  = TIM.now v (tim m) + Z.of_nat (sample_ticks d (tim m)).
Proof.
  intros Hok Hal Hcen.
  pose proof (sample_eq value d m) as E. cbv zeta in E. rewrite E. clear E.
  unfold sample_allowed in Hal. unfold sample_ticks.
  apply andb_true_iff in Hal. destruct Hal as [Hal H3].
  apply andb_true_iff in Hal. destruct Hal as [H1 H2].
  set (r1 := TIM.elapse (before_cnt d) (tim m)) in *.
  set (r2 := TIM.elapse (before_sr d) r1) in *.
  assert (Hok1 : TIM.ok r1) by now apply TIMFacts.elapse_ok.
  assert (Hok2 : TIM.ok r2) by now apply TIMFacts.elapse_ok.
  assert (Hc1 : TIM.cen r1 = true) by (unfold r1; now rewrite elapse_cen).
  assert (Hc2 : TIM.cen r2 = true) by (unfold r2; now rewrite elapse_cen).
  pose proof (elapse_exact v _ Hok H1 Hcen) as L1. fold r1 in L1.
  pose proof (elapse_exact v _ Hok1 H2 Hc1) as L2. fold r2 in L2.
  destruct (TIM.uif r2); cbn [snd tim].
  - rewrite (elapse_exact v _ Hok2 H3 Hc2). lia.
  - lia.
Qed.

(** One event: monotonic time advances by the timer cycles of the event. *)
Lemma exec_exact e m :
  running m ->
  TIM.cen (tim m) = true ->
  allowed e m = true ->
  time_mono (clk m) + USecPerOverflow * (Z.of_nat (irq_count [e]) + 2) <= 2 ^ 64 ->
  mono_now (exec e m) = mono_now m + Z.of_nat (ticks_in e m)
  /\ TIM.cen (tim (exec e m)) = true.
Proof.
  intros Hrun Hcen Hal Hb. pose proof Hrun as (Hi & Hok & H0).
  split.
  2:{ destruct (@exec_ctrl e m (or_introl Hi)) as (_ & E2 & _).
      rewrite (@cen_same _ _ E2). exact Hcen. }
  destruct e; cbn [exec allowed ticks_in] in *.
  - change (TIM.now (time_mono (clk m)) (TIM.tick (tim m))
            = TIM.now (time_mono (clk m)) (tim m) + Z.of_nat 1).
    rewrite (tick_exact (time_mono (clk m)) Hok Hal Hcen). lia.
  - apply andb_true_iff in Hal. destruct Hal as [Hu _].
    destruct (handler_fields m) as (_ & _ & _ & _ & G5 & _ & G7).
    cbn [irq_count Z.of_nat] in Hb. unfold USecPerOverflow in *.
    rewrite IntFacts.u64_small in G5 by lia.
    unfold mono_now. rewrite G5, G7, TIMFacts.uif_clear, Hu.
    unfold USecPerOverflow. cbn [TIM.CNT TIM.write_SR]. lia.
  - rewrite (init_running m Hi). cbn. lia.
  - apply andb_true_iff in Hal. destruct Hal as [_ Hal].
    rewrite getMonotonic_eq. cbn [snd]. unfold mono_now. rewrite sample_clk.
    apply (sample_exact (time_mono (clk m)) time_mono d m Hok Hal Hcen).
  - apply andb_true_iff in Hal. destruct Hal as [_ Hal].
    rewrite getUtc_eq. destruct (utc_set (clk m)); cbn [snd]; [|cbn; lia].
    unfold mono_now. rewrite sample_clk.
    apply (sample_exact (time_mono (clk m)) time_utc d m Hok Hal Hcen).
  - apply andb_true_iff in Hal. destruct Hal as [_ Hal].
    rewrite getUtcUSecFromCanInterrupt_eq.
    destruct (utc_set (clk m)); cbn [snd]; [|cbn; lia].
    unfold mono_now. rewrite sample_clk.
    apply (sample_exact (time_mono (clk m)) time_utc d m Hok Hal Hcen).
  - destruct (adjustUtc_frame adjustment m) as (F1 & _ & F3).
    unfold mono_now. rewrite F1, F3. cbn. lia.
  - cbn. lia.
  - cbn. lia.
Qed.

Lemma run_exact tr : forall m,
  running m ->
  TIM.cen (tim m) = true ->
  valid tr m = true ->
  time_mono (clk m) + USecPerOverflow * (Z.of_nat (irq_count tr) + 2) <= 2 ^ 64 ->
  running (run tr m)
  /\ mono_now (run tr m) = mono_now m + Z.of_nat (ticks_of tr m)
  /\ time_mono (clk (run tr m)) + 2 * USecPerOverflow <= 2 ^ 64.
Proof.
  induction tr as [|e tr IH]; intros m Hrun Hcen Hv Hb.
  - cbn [run ticks_of irq_count Z.of_nat] in *. unfold USecPerOverflow in *.
    repeat split; try apply Hrun; lia.
  - cbn [valid] in Hv. apply andb_true_iff in Hv. destruct Hv as [Hal Hv].
    rewrite irq_count_cons, Nat2Z.inj_add in Hb.
    assert (Hb1 : time_mono (clk m)
                  + USecPerOverflow * (Z.of_nat (irq_count [e]) + 2) <= 2 ^ 64).
    { unfold USecPerOverflow in *. lia. }
    destruct (exec_step e Hrun Hal Hb1) as (Hrun' & Htm & _).
    destruct (exec_exact e Hrun Hcen Hal Hb1) as (Hnow & Hcen').
    destruct (IH (exec e m) Hrun' Hcen' Hv) as (R1 & R2 & R3).
    { rewrite Htm. unfold USecPerOverflow in *. lia. }
    cbn [run ticks_of]. rewrite R2, Hnow, Nat2Z.inj_add.
    repeat split; try apply R1; try assumption; lia.
Qed.

(** X8. Monotonic time counts the timer cycles: along every run in which
    each wrap is served before the next one, the time the accumulator and
    the counter stand for advances by exactly the number of cycles of the
    timer, whatever handler invocations, reads and adjustments fall in
    between; and a read at the end of the run returns the time at its start
    plus that number.  No microsecond is lost or counted twice. *)
Theorem getMonotonic_counts_ticks tr m :
  running m ->
  TIM.cen (tim m) = true ->
  valid tr m = true ->
  time_mono (clk m) + USecPerOverflow * (Z.of_nat (irq_count tr) + 2) <= 2 ^ 64 ->
  mono_now (run tr m) = mono_now m + Z.of_nat (ticks_of tr m)
  /\ MonotonicTime.toUSec (fst (getMonotonic no_latency (run tr m)))
     = mono_now m + Z.of_nat (ticks_of tr m).
Proof.
  intros Hrun Hcen Hv Hb.
  destruct (run_exact tr Hrun Hcen Hv Hb) as (R1 & R2 & R3).
  split; [exact R2|]. rewrite <- R2.
  assert (Hal : allowed (CallGetMonotonic no_latency) (run tr m) = true).
  { cbn [allowed]. destruct R1 as (Hi & _). rewrite Hi.
    unfold sample_allowed.
    cbn [no_latency before_cnt before_sr before_recnt TIM.elapse
         TIM.elapse_allowed andb].
    destruct (TIM.uif (tim (run tr m))); reflexivity. }
  pose proof (getMonotonic_between no_latency R1 Hal R3) as Hbt.
  assert (E : mono_now (exec (CallGetMonotonic no_latency) (run tr m))
              = mono_now (run tr m)).
  { cbn [exec]. rewrite getMonotonic_eq. cbn [snd]. unfold mono_now.
    rewrite sample_clk.
    pose proof (sample_eq time_mono no_latency (run tr m)) as E.
    cbv zeta in E. rewrite E.
    cbn [no_latency before_cnt before_sr before_recnt TIM.elapse].
    destruct (TIM.uif (tim (run tr m))) eqn:U; cbn [snd tim]; rewrite U;
      reflexivity. }
  lia.
Qed.

Lemma getMonotonic_counts_ticks_witness :
  MonotonicTime.toUSec (fst (getMonotonic no_latency (run race_trace near_wrap)))
  = 65534 + 3.
Proof.
  refine (proj2 (@getMonotonic_counts_ticks race_trace near_wrap _ _ _ _)).
  - unfold running, TIM.ok. cbn. repeat split; lia.
  - reflexivity.
  - vm_compute. reflexivity.
  - cbn. lia.
Defined.

(** X9. The value [getMonotonic] returns is the time at some moment of the
    call: not before the time at the call, and past it by at most the
    timer cycles that go by inside the sampler; after the call the time has
    advanced by exactly those cycles. *)
Theorem getMonotonic_accurate d m :
  running m ->
  TIM.cen (tim m) = true ->
  sample_allowed d (tim m) = true ->
  time_mono (clk m) + 2 * USecPerOverflow <= 2 ^ 64 ->
  mono_now m <= MonotonicTime.toUSec (fst (getMonotonic d m))
  /\ MonotonicTime.toUSec (fst (getMonotonic d m))
     <= mono_now m + Z.of_nat (sample_ticks d (tim m))
  /\ mono_now (snd (getMonotonic d m))
     = mono_now m + Z.of_nat (sample_ticks d (tim m)).
Proof.
  intros Hrun Hcen Hal Hb. pose proof Hrun as (Hi & Hok & H0).
  assert (Hal' : allowed (CallGetMonotonic d) m = true).
  { cbn [allowed]. now rewrite Hi, Hal. }
  pose proof (getMonotonic_between d Hrun Hal' Hb) as Hbt.
  assert (E : mono_now (snd (getMonotonic d m))
              = mono_now m + Z.of_nat (sample_ticks d (tim m))).
  { rewrite getMonotonic_eq. cbn [snd]. unfold mono_now. rewrite sample_clk.
    apply (sample_exact (time_mono (clk m)) time_mono d m Hok Hal Hcen). }
  cbn [exec] in Hbt. lia.
Qed.

Lemma getMonotonic_accurate_witness :
  65535 <= MonotonicTime.toUSec
             (fst (getMonotonic (mkLatency 0 1 0) (exec Tick near_wrap)))
  /\ MonotonicTime.toUSec
       (fst (getMonotonic (mkLatency 0 1 0) (exec Tick near_wrap)))
     <= 65535 + 1.
Proof.
  refine (let H := @getMonotonic_accurate (mkLatency 0 1 0) (exec Tick near_wrap)
                     _ _ _ _ in
          conj (proj1 H) (proj1 (proj2 H))).
  - unfold running, TIM.ok. cbn. repeat split; lia.
  - reflexivity.
  - vm_compute. reflexivity.
  - cbn. lia.
Defined.

(** ** UTC time along a run *)

Lemma exec_utc_frame e m :
  e <> Irq ->
  (forall a, e <> CallAdjustUtc a) ->
  utc_set (clk (exec e m)) = utc_set (clk m)
  /\ utc_correction_usec_per_overflow (clk (exec e m))
     = utc_correction_usec_per_overflow (clk m)
  /\ time_utc (clk (exec e m)) = time_utc (clk m).
Proof.
  intros H1 H2. destruct e; cbn [exec]; auto.
  - now elim H1.
  - unfold init. run_monad. destruct (initialized (clk m)); cbn; auto.
  - rewrite getMonotonic_eq. cbn [snd]. rewrite sample_clk. auto.
  - rewrite getUtc_eq. destruct (utc_set (clk m)) eqn:E; cbn [snd];
      [rewrite sample_clk, E | rewrite E]; auto.
  - rewrite getUtcUSecFromCanInterrupt_eq.
    destruct (utc_set (clk m)) eqn:E; cbn [snd];
      [rewrite sample_clk, E | rewrite E]; auto.
  - now elim (H2 adjustment).
Qed.

(** X10. Between adjustments the UTC accumulator runs at the corrected
    rate: along every run without a call of [adjustUtc] on a synchronized
    clock it grows by one period plus the speed correction for each
    invocation of the handler, and the correction itself stays as it is; on
    a clock that is not synchronized it does not move at all. *)
Theorem utc_runs_at_corrected_rate tr : forall m,
  adjust_free tr = true ->
  - MaxUtcSpeedCorrection <= utc_correction_usec_per_overflow (clk m)
    <= MaxUtcSpeedCorrection ->
  0 <= time_utc (clk m) ->
  time_utc (clk m)
  + (USecPerOverflow + MaxUtcSpeedCorrection) * Z.of_nat (irq_count tr) < 2 ^ 64 ->
  utc_set (clk (run tr m)) = utc_set (clk m)
  /\ utc_correction_usec_per_overflow (clk (run tr m))
     = utc_correction_usec_per_overflow (clk m)
  /\ time_utc (clk (run tr m))
     = time_utc (clk m)
       + (if utc_set (clk m)
          then (USecPerOverflow + utc_correction_usec_per_overflow (clk m))
               * Z.of_nat (irq_count tr)
          else 0).
Proof.
  unfold USecPerOverflow, MaxUtcSpeedCorrection.
  induction tr as [|e tr IH]; intros m Hf Hc H0 Hb.
  - cbn [run irq_count Z.of_nat]. destruct (utc_set (clk m)); repeat split; lia.
  - rewrite irq_count_cons, Nat2Z.inj_add in *. cbn [run].
    assert (Hpos : 0 <= Z.of_nat (irq_count tr)) by lia.
    destruct e; cbn [adjust_free] in Hf; try discriminate.
    2:{ (* Irq *)
      destruct (handler_fields m) as (_ & G2 & _ & G4 & _ & G6 & _).
      cbn [irq_count Z.of_nat] in *. unfold USecPerOverflow in *.
      cbn [exec]. set (m' := snd (TIMX_IRQHandler m)) in *.
      assert (G6' : time_utc (clk m')
                    = time_utc (clk m)
                      + (if utc_set (clk m)
                         then 65536 + utc_correction_usec_per_overflow (clk m)
                         else 0)).
      { rewrite G6. destruct (utc_set (clk m)); [|lia].
        rewrite (IntFacts.u32_small
                   (x := 65536 + utc_correction_usec_per_overflow (clk m)))
          by lia.
        rewrite IntFacts.u64_small; lia. }
      destruct (IH m' Hf) as (R1 & R2 & R3).
      { rewrite G4. exact Hc. }
      { rewrite G6'. destruct (utc_set (clk m)); lia. }
      { rewrite G6'. destruct (utc_set (clk m)); lia. }
      rewrite R1, R2, R3, G2, G4, G6'.
      repeat split. destruct (utc_set (clk m)); lia. }
    all: match goal with
         | Hc' : _ <= utc_correction_usec_per_overflow (clk ?m0) <= _
           |- context [exec ?e ?m0] =>
             destruct (@exec_utc_frame e m0) as (F1 & F2 & F3);
               [discriminate | intros a'; discriminate |];
               destruct (IH (exec e m0) Hf) as (R1 & R2 & R3);
               [rewrite F2; exact Hc' | rewrite F3; assumption
               | rewrite F3; cbn [irq_count Z.of_nat] in *; lia |];
               rewrite R1, R2, R3, F1, F2, F3;
               cbn [irq_count Z.of_nat]; repeat split;
               destruct (utc_set (clk m0)); lia
         end.
Qed.

Lemma utc_runs_at_corrected_rate_witness :
  time_utc (clk (run [Irq; Tick; CallGetUtc no_latency; Irq] synced_pending))
  = 2000000 + (65536 + 3) * 2.
Proof.
  refine (proj2 (proj2
           (@utc_runs_at_corrected_rate [Irq; Tick; CallGetUtc no_latency; Irq]
              synced_pending eq_refl _ _ _)));
    unfold synced_pending, MaxUtcSpeedCorrection, USecPerOverflow;
    cbn [clk time_utc utc_correction_usec_per_overflow irq_count Z.of_nat];
    lia.
Defined.

(** ** The adjuster over several calls *)

Lemma offset_value_exact a tu :
  - 2 ^ 63 <= UtcDuration.toUSec a < 2 ^ 63 ->
  0 <= tu ->
  0 <= tu + UtcDuration.toUSec a < 2 ^ 64 ->
  offset_value a tu = tu + UtcDuration.toUSec a.
Proof.
  intros Hr H0 Hb. unfold offset_value.
  rewrite IntFacts.u64_add_u64.
  destruct (UtcDuration.toUSec a <? 0) eqn:L; cbn [andb].
  - rewrite IntFacts.u64_neg_s64 by lia.
    destruct (- UtcDuration.toUSec a >? tu) eqn:G; [lia|].
    apply IntFacts.u64_small. lia.
  - apply IntFacts.u64_small. lia.
Qed.

Lemma adjustUtc_synced a m :
  utc_set (clk m) = true ->
  - MaxUtcSpeedCorrection <= utc_correction_usec_per_overflow (clk m)
    <= MaxUtcSpeedCorrection ->
  utc_set (clk (snd (adjustUtc a m))) = true
  /\ utc_correction_usec_per_overflow (clk (snd (adjustUtc a m)))
     = (if UtcDuration.toUSec a =? 0
        then utc_correction_usec_per_overflow (clk m)
        else if 0 <? UtcDuration.toUSec a
             then Z.min (utc_correction_usec_per_overflow (clk m) + 1) 500
             else Z.max (utc_correction_usec_per_overflow (clk m) - 1) (- 500))
  /\ utc_jump_cnt (clk (snd (adjustUtc a m)))
     = (if negb (UtcDuration.toUSec a =? 0)
           && (UtcDuration.toMSec (UtcDuration.getAbs a) >? 1)
        then Int.u32 (utc_jump_cnt (clk m) + 1)
        else utc_jump_cnt (clk m))
  /\ time_utc (clk (snd (adjustUtc a m)))
     = (if negb (UtcDuration.toUSec a =? 0)
           && (UtcDuration.toMSec (UtcDuration.getAbs a) >? 1)
        then offset_value a (time_utc (clk m))
        else time_utc (clk m)).
Proof.
  intros Hs Hc. pose proof (speed_trim_spec a Hc) as Ht.
  rewrite adjustUtc_eq. cbn [snd clk]. cbv zeta.
  unfold UtcDuration.isZero, offset_due, MaxUtcSpeedCorrection in *.
  rewrite Hs, andb_true_r. cbn [negb]. rewrite orb_false_r.
  destruct (UtcDuration.toUSec a =? 0); cbn [negb andb]; [auto|].
  destruct (UtcDuration.toMSec (UtcDuration.getAbs a) >? 1); cbn; rewrite ?Ht;
    auto.
Qed.

(** X11. A clock value adjustment moves the UTC reading by exactly the
    correction: on a synchronized clock, for a correction of two
    milliseconds or more that does not take the accumulator below zero,
    [getUtc] after [adjustUtc] returns what it would have returned before,
    plus the correction. *)
Theorem adjustUtc_shifts_getUtc a d m :
  utc_set (clk m) = true ->
  TIM.ok (tim m) ->
  - MaxUtcSpeedCorrection <= utc_correction_usec_per_overflow (clk m)
    <= MaxUtcSpeedCorrection ->
  - 2 ^ 63 < UtcDuration.toUSec a < 2 ^ 63 ->
  2000 <= Z.abs (UtcDuration.toUSec a) ->
  0 <= time_utc (clk m) ->
  0 <= time_utc (clk m) + UtcDuration.toUSec a ->
  time_utc (clk m) + 2 * USecPerOverflow <= 2 ^ 64 ->
  time_utc (clk m) + UtcDuration.toUSec a + 2 * USecPerOverflow <= 2 ^ 64 ->
  UtcTime.toUSec (fst (getUtc d (snd (adjustUtc a m))))
  = UtcTime.toUSec (fst (getUtc d m)) + UtcDuration.toUSec a.
Proof.
  unfold USecPerOverflow. intros Hs Hok Hc Hr Hbig H0 H1 Hb Hb'.
  destruct (@adjustUtc_synced a m Hs Hc) as (A1 & _ & _ & A4).
  destruct (adjustUtc_frame a m) as (F1 & _ & _).
  assert (G : (UtcDuration.toMSec (UtcDuration.getAbs a) >? 1) = true)
    by now apply toMSec_getAbs.
  assert (Z0 : (UtcDuration.toUSec a =? 0) = false) by lia.
  rewrite G, Z0 in A4. cbn [negb andb] in A4.
  rewrite offset_value_exact in A4 by lia.
  rewrite !getUtc_eq, A1, Hs. cbn [fst UtcTime.toUSec].
  pose proof (sample_eq time_utc d (snd (adjustUtc a m))) as E1.
  pose proof (sample_eq time_utc d m) as E2. cbv zeta in E1, E2.
  rewrite F1, A4 in E1. rewrite E1, E2. unfold USecPerOverflow.
  set (r1 := TIM.elapse (before_cnt d) (tim m)).
  set (r2 := TIM.elapse (before_sr d) r1).
  set (r3 := TIM.elapse (before_recnt d) r2).
  assert (Hok1 : TIM.ok r1) by now apply TIMFacts.elapse_ok.
  assert (Hok2 : TIM.ok r2) by now apply TIMFacts.elapse_ok.
  assert (Hok3 : TIM.ok r3) by now apply TIMFacts.elapse_ok.
  destruct Hok1 as [_ C1]. destruct Hok3 as [_ C3].
  destruct (TIM.uif r2); cbn [fst].
  - rewrite (IntFacts.u64_small
               (x := time_utc (clk m) + UtcDuration.toUSec a + 65536)) by lia.
    rewrite (IntFacts.u64_small (x := time_utc (clk m) + 65536)) by lia.
    rewrite !IntFacts.u64_small by lia. lia.
  - rewrite !IntFacts.u64_small by lia. lia.
Qed.

Lemma adjustUtc_shifts_getUtc_witness :
  UtcTime.toUSec
    (fst (getUtc no_latency
            (snd (adjustUtc (UtcDuration.fromUSec (- 5000)) synced_pending))))
  = UtcTime.toUSec (fst (getUtc no_latency synced_pending)) + - 5000.
Proof.
  refine (@adjustUtc_shifts_getUtc (UtcDuration.fromUSec (- 5000)) no_latency
            synced_pending eq_refl _ _ _ _ _ _ _ _);
    unfold synced_pending, TIM.ok, MaxUtcSpeedCorrection, USecPerOverflow;
    cbn [clk tim TIM.ARR TIM.CNT time_utc utc_correction_usec_per_overflow
         UtcDuration.toUSec];
    lia.
Defined.

(** X12. The first adjustment sets the UTC clock to the correction itself:
    on a reachable clock that is not synchronized yet the UTC accumulator is
    still zero, [getUtc] returns the zero timestamp, and [adjustUtc] leaves
    the accumulator at the correction when it is not negative and at 1 when
    it is negative. *)
Theorem first_adjustUtc_sets_time a d m :
  reachable m ->
  utc_set (clk m) = false ->
  Int.in_s64 (UtcDuration.toUSec a) ->
  time_utc (clk m) = 0
  /\ getUtc d m = (UtcTime.zero, m)
  /\ time_utc (clk (snd (adjustUtc a m)))
     = (if UtcDuration.toUSec a <? 0 then 1 else UtcDuration.toUSec a).
Proof.
  unfold Int.in_s64. intros Hr Hus Hin.
  destruct (reachable_inv Hr) as [(_ & _ & _ & _ & Hz) _].
  destruct (Hz Hus) as (_ & _ & H0).
  split; [exact H0|]. split.
  - rewrite getUtc_eq, Hus. reflexivity.
  - rewrite adjustUtc_eq. cbn [snd clk]. cbv zeta. unfold offset_due.
    rewrite Hus, andb_false_r, orb_true_r. cbn [time_utc]. rewrite H0.
    unfold offset_value.
    destruct (UtcDuration.toUSec a <? 0) eqn:L; cbn [andb].
    + rewrite IntFacts.u64_neg_s64 by lia.
      destruct (- UtcDuration.toUSec a >? 0) eqn:G; [reflexivity | lia].
    + rewrite IntFacts.u64_add_u64. apply IntFacts.u64_small. lia.
Qed.

Lemma first_adjustUtc_sets_time_witness :
  time_utc (clk (snd (adjustUtc (UtcDuration.fromUSec (- 7)) started))) = 1.
Proof.
  refine (proj2 (proj2 (@first_adjustUtc_sets_time
                          (UtcDuration.fromUSec (- 7)) no_latency started
                          started_reachable eq_refl _))).
  unfold Int.in_s64. cbn. lia.
Defined.

Lemma run_adjust_cons a l m :
  run (map CallAdjustUtc (a :: l)) m
  = run (map CallAdjustUtc l) (snd (adjustUtc a m)).
Proof. reflexivity. Qed.

(** X13. Repeated adjustments of one sign saturate the speed correction: on
    a synchronized clock, [n] calls of [adjustUtc] with positive corrections
    take the speed correction [c] to [min (c + n) 500], and [n] calls with
    negative corrections take it to [max (c - n) (-500)], whatever the
    magnitudes. *)
Theorem speed_correction_saturates l : forall m,
  utc_set (clk m) = true ->
  - MaxUtcSpeedCorrection <= utc_correction_usec_per_overflow (clk m)
    <= MaxUtcSpeedCorrection ->
  (Forall (fun a => 0 < UtcDuration.toUSec a) l ->
   utc_correction_usec_per_overflow (clk (run (map CallAdjustUtc l) m))
   = Z.min (utc_correction_usec_per_overflow (clk m) + Z.of_nat (length l)) 500)
  /\ (Forall (fun a => UtcDuration.toUSec a < 0) l ->
      utc_correction_usec_per_overflow (clk (run (map CallAdjustUtc l) m))
      = Z.max (utc_correction_usec_per_overflow (clk m) - Z.of_nat (length l))
              (- 500)).
Proof.
  unfold MaxUtcSpeedCorrection.
  induction l as [|a l IH]; intros m Hs Hc.
  - cbn [map run length Z.of_nat]. split; intros _; lia.
  - destruct (@adjustUtc_synced a m Hs Hc) as (A1 & A2 & _).
    rewrite run_adjust_cons. cbn [length]. rewrite Nat2Z.inj_succ.
    set (m' := snd (adjustUtc a m)) in *.
    split; intros Hall; inversion Hall as [|? ? Ha Hl]; subst.
    + assert (E : (UtcDuration.toUSec a =? 0) = false) by lia.
      assert (P : (0 <? UtcDuration.toUSec a) = true) by lia.
      rewrite E, P in A2.
      destruct (IH m' A1) as [I1 _].
      { unfold MaxUtcSpeedCorrection. rewrite A2. lia. }
      rewrite (I1 Hl), A2. lia.
    + assert (E : (UtcDuration.toUSec a =? 0) = false) by lia.
      assert (P : (0 <? UtcDuration.toUSec a) = false) by lia.
      rewrite E, P in A2.
      destruct (IH m' A1) as [_ I2].
      { unfold MaxUtcSpeedCorrection. rewrite A2. lia. }
      rewrite (I2 Hl), A2. lia.
Qed.

Lemma speed_correction_saturates_witness :
  utc_correction_usec_per_overflow
    (clk (run (map CallAdjustUtc
                   [UtcDuration.fromUSec 5; UtcDuration.fromUSec 700000])
              synced))
  = Z.min (0 + 2) 500.
Proof.
  refine (proj1 (@speed_correction_saturates
                   [UtcDuration.fromUSec 5; UtcDuration.fromUSec 700000]
                   synced eq_refl _) _).
  - unfold MaxUtcSpeedCorrection. vm_compute. split; discriminate.
  - repeat constructor.
Defined.

(** X14. The jump count counts the clock value adjustments: over any
    sequence of calls of [adjustUtc] on a synchronized clock it grows,
    modulo [2 ^ 32], by the number of corrections of two milliseconds or
    more. *)
Theorem jump_count_counts_offsets l : forall m,
  utc_set (clk m) = true ->
  - MaxUtcSpeedCorrection <= utc_correction_usec_per_overflow (clk m)
    <= MaxUtcSpeedCorrection ->
  0 <= utc_jump_cnt (clk m) < 2 ^ 32 ->
  Forall (fun a => - 2 ^ 63 < UtcDuration.toUSec a < 2 ^ 63) l ->
  utc_jump_cnt (clk (run (map CallAdjustUtc l) m))
  = Int.u32 (utc_jump_cnt (clk m) + Z.of_nat (offset_count l)).
Proof.
  induction l as [|a l IH]; intros m Hs Hc Hj Hall.
  - cbn [map run offset_count Z.of_nat]. rewrite Z.add_0_r.
    symmetry. apply IntFacts.u32_small. exact Hj.
  - inversion Hall as [|? ? Ha Hl]; subst.
    destruct (@adjustUtc_synced a m Hs Hc) as (A1 & A2 & A3 & _).
    rewrite run_adjust_cons. set (m' := snd (adjustUtc a m)) in *.
    assert (Hc' : - MaxUtcSpeedCorrection
                  <= utc_correction_usec_per_overflow (clk m')
                  <= MaxUtcSpeedCorrection).
    { rewrite A2. unfold MaxUtcSpeedCorrection in *.
      destruct (UtcDuration.toUSec a =? 0); [lia|].
      destruct (0 <? UtcDuration.toUSec a); lia. }
    pose proof (toMSec_getAbs a Ha) as Hms.
    cbn [offset_count]. rewrite Nat2Z.inj_add.
    destruct (2000 <=? Z.abs (UtcDuration.toUSec a)) eqn:Big.
    + assert (G : (UtcDuration.toMSec (UtcDuration.getAbs a) >? 1) = true)
        by (apply Hms; lia).
      assert (E : (UtcDuration.toUSec a =? 0) = false) by lia.
      rewrite G, E in A3. cbn [negb andb] in A3.
      rewrite (IH m' A1 Hc'); [|rewrite A3; apply IntFacts.u32_range|exact Hl].
      rewrite A3. unfold Int.u32. rewrite Zplus_mod_idemp_l.
      f_equal. cbn [Z.of_nat]. lia.
    + assert (G : negb (UtcDuration.toUSec a =? 0)
                  && (UtcDuration.toMSec (UtcDuration.getAbs a) >? 1) = false).
      { destruct (UtcDuration.toMSec (UtcDuration.getAbs a) >? 1) eqn:G;
          [|apply andb_false_r].
        pose proof (proj1 Hms eq_refl). lia. }
      rewrite G in A3.
      rewrite (IH m' A1 Hc'); [|rewrite A3; exact Hj|exact Hl].
      rewrite A3. f_equal.
Qed.

Lemma jump_count_counts_offsets_witness :
  utc_jump_cnt
    (clk (run (map CallAdjustUtc
                   [UtcDuration.fromUSec 1999; UtcDuration.fromUSec (- 2000);
                    UtcDuration.fromUSec 0; UtcDuration.fromUSec 60000000])
              synced))
  = Int.u32 (0 + 2).
Proof.
  refine (@jump_count_counts_offsets
            [UtcDuration.fromUSec 1999; UtcDuration.fromUSec (- 2000);
             UtcDuration.fromUSec 0; UtcDuration.fromUSec 60000000]
            synced eq_refl _ _ _).
  - unfold MaxUtcSpeedCorrection. vm_compute. split; discriminate.
  - vm_compute. split; [discriminate | reflexivity].
  - repeat constructor; cbn; lia.
Defined.

(** ** UTC readings *)

(** Both UTC readers return a value between the UTC time at the call and
    the UTC time at the return. *)
Lemma getUtc_between d m :
  utc_set (clk m) = true ->
  TIM.ok (tim m) ->
  sample_allowed d (tim m) = true ->
  0 <= time_utc (clk m) ->
  time_utc (clk m) + 2 * USecPerOverflow <= 2 ^ 64 ->
  UtcTime.toUSec (fst (getUtc d m)) = fst (getUtcUSecFromCanInterrupt d m)
  /\ utc_now m <= fst (getUtcUSecFromCanInterrupt d m)
     <= utc_now (snd (getUtcUSecFromCanInterrupt d m))
  /\ snd (getUtc d m) = snd (getUtcUSecFromCanInterrupt d m)
  /\ clk (snd (getUtc d m)) = clk m
  /\ TIM.ok (tim (snd (getUtc d m))).
Proof.
  intros Hs Hok Hal H0 Hb.
  rewrite getUtc_eq, getUtcUSecFromCanInterrupt_eq, Hs.
  cbn [fst snd UtcTime.toUSec].
  destruct (sample_bounds time_utc d m Hok Hal H0 Hb) as [Hok' Hnow].
  split; [reflexivity|]. split.
  - unfold utc_now. rewrite sample_clk. exact Hnow.
  - split; [reflexivity|]. split; [apply sample_clk | exact Hok'].
Qed.

(** X15. The value [getUtc] and [getUtcUSecFromCanInterrupt] return on a
    synchronized clock is the UTC time at some moment of the call: not
    before the UTC time at the call, and past it by at most the timer cycles
    that go by inside the sampler. *)
Theorem getUtc_accurate d m :
  utc_set (clk m) = true ->
  TIM.ok (tim m) ->
  TIM.cen (tim m) = true ->
  sample_allowed d (tim m) = true ->
  0 <= time_utc (clk m) ->
  time_utc (clk m) + 2 * USecPerOverflow <= 2 ^ 64 ->
  utc_now m <= UtcTime.toUSec (fst (getUtc d m))
  /\ UtcTime.toUSec (fst (getUtc d m))
     <= utc_now m + Z.of_nat (sample_ticks d (tim m))
  /\ fst (getUtcUSecFromCanInterrupt d m) = UtcTime.toUSec (fst (getUtc d m)).
Proof.
  intros Hs Hok Hcen Hal H0 Hb.
  destruct (@getUtc_between d m Hs Hok Hal H0 Hb) as (E & Hbt & _).
  rewrite E. split; [apply Hbt|]. split; [|reflexivity].
  rewrite getUtcUSecFromCanInterrupt_eq, Hs in Hbt.
  rewrite getUtcUSecFromCanInterrupt_eq, Hs.
  pose proof (sample_exact (time_utc (clk m)) time_utc d m Hok Hal Hcen) as Hx.
  unfold utc_now in *. rewrite sample_clk in Hbt.
  unfold TIM.now in Hx. lia.
Qed.

Lemma getUtc_accurate_witness :
  utc_now synced_pending
  <= UtcTime.toUSec (fst (getUtc (mkLatency 2 0 1) synced_pending))
  /\ UtcTime.toUSec (fst (getUtc (mkLatency 2 0 1) synced_pending))
     <= utc_now synced_pending + 3.
Proof.
  refine (let H := @getUtc_accurate (mkLatency 2 0 1) synced_pending
                     eq_refl _ eq_refl _ _ _ in
          conj (proj1 H) (proj1 (proj2 H))).
  - unfold TIM.ok. cbn. lia.
  - vm_compute. reflexivity.
  - cbn. lia.
  - cbn. lia.
Defined.

(** What the run lemma for UTC readings carries along. *)
Lemma utc_exec_step e m :
  initialized (clk m) = true ->
  utc_set (clk m) = true ->
  TIM.ok (tim m) ->
  0 <= utc_correction_usec_per_overflow (clk m) <= MaxUtcSpeedCorrection ->
  0 <= time_utc (clk m) ->
  (forall a, e <> CallAdjustUtc a) ->
  allowed e m = true ->
  time_utc (clk m)
  + (USecPerOverflow + MaxUtcSpeedCorrection) * (Z.of_nat (irq_count [e]) + 2)
  <= 2 ^ 64 ->
  initialized (clk (exec e m)) = true
  /\ utc_set (clk (exec e m)) = true
  /\ TIM.ok (tim (exec e m))
  /\ utc_correction_usec_per_overflow (clk (exec e m))
     = utc_correction_usec_per_overflow (clk m)
  /\ time_utc (clk m) <= time_utc (clk (exec e m))
     <= time_utc (clk m)
        + (USecPerOverflow + MaxUtcSpeedCorrection) * Z.of_nat (irq_count [e])
  /\ utc_now m <= utc_now (exec e m).
Proof.
  unfold USecPerOverflow, MaxUtcSpeedCorrection.
  intros Hi Hs Hok Hc H0 Hna Hal Hb.
  assert (Hsame : forall m', clk m' = clk m -> TIM.ok (tim m') ->
                             utc_now m <= utc_now m' ->
            irq_count [e] = O ->
            initialized (clk m') = true
            /\ utc_set (clk m') = true
            /\ TIM.ok (tim m')
            /\ utc_correction_usec_per_overflow (clk m')
               = utc_correction_usec_per_overflow (clk m)
            /\ time_utc (clk m) <= time_utc (clk m')
               <= time_utc (clk m) + (65536 + 500) * Z.of_nat (irq_count [e])
            /\ utc_now m <= utc_now m').
  { intros m' E1 E2 E3 E4. rewrite E1, E4. cbn [Z.of_nat].
    split; [assumption|]. split; [assumption|]. split; [assumption|].
    split; [reflexivity|]. split; [lia | assumption]. }
  assert (Hb2 : irq_count [e] = O -> time_utc (clk m) + 2 * USecPerOverflow <= 2 ^ 64).
  { intros E. rewrite E in Hb. unfold USecPerOverflow. cbn [Z.of_nat] in Hb. lia. }
  assert (Hsample : forall d, sample_allowed d (tim m) = true ->
            let m' := snd (sampleFromCriticalSection time_utc d m) in
            time_utc (clk m) + 2 * USecPerOverflow <= 2 ^ 64 ->
            clk m' = clk m /\ TIM.ok (tim m') /\ utc_now m <= utc_now m').
  { intros d Hd m' Hbd.
    destruct (sample_bounds time_utc d m Hok Hd H0 Hbd) as [Hok' Hnow].
    split; [apply sample_clk|]. split; [exact Hok'|].
    unfold utc_now, m'. rewrite sample_clk. unfold TIM.now in Hnow. lia. }
  destruct e; cbn [exec allowed] in *.
  - apply Hsame; try reflexivity.
    + now apply TIMFacts.tick_ok.
    + apply (TIMFacts.tick_now (time_utc (clk m)) Hok Hal).
  - apply andb_true_iff in Hal. destruct Hal as [Hu _].
    destruct (handler_fields m) as (G1 & G2 & _ & G4 & _ & G6 & G7).
    cbn [irq_count Z.of_nat] in *. unfold USecPerOverflow in *.
    rewrite Hs in G6.
    rewrite (IntFacts.u32_small
               (x := 65536 + utc_correction_usec_per_overflow (clk m)))
      in G6 by lia.
    rewrite IntFacts.u64_small in G6 by lia.
    unfold utc_now. rewrite G1, G2, G4, G6, G7, TIMFacts.uif_clear, Hu.
    unfold USecPerOverflow. cbn [TIM.CNT TIM.write_SR].
    repeat split; try assumption; try apply Hok; lia.
  - rewrite (init_running m Hi). apply Hsame; try reflexivity; try assumption; lia.
  - apply andb_true_iff in Hal. destruct Hal as [_ Hal].
    rewrite getMonotonic_eq. cbn [snd].
    destruct (Hsample d Hal (Hb2 eq_refl)) as (S1 & S2 & S3).
    apply Hsame.
    + apply sample_clk.
    + rewrite (sample_tim time_mono time_utc). exact S2.
    + unfold utc_now in *. rewrite sample_clk in *.
      rewrite (sample_tim time_mono time_utc). exact S3.
    + reflexivity.
  - apply andb_true_iff in Hal. destruct Hal as [_ Hal]. rewrite Hs in Hal.
    rewrite getUtc_eq, Hs. cbn [snd].
    destruct (Hsample d Hal (Hb2 eq_refl)) as (S1 & S2 & S3).
    now apply Hsame.
  - apply andb_true_iff in Hal. destruct Hal as [_ Hal]. rewrite Hs in Hal.
    rewrite getUtcUSecFromCanInterrupt_eq, Hs.
    destruct (Hsample d Hal (Hb2 eq_refl)) as (S1 & S2 & S3).
    now apply Hsame.
  - now elim (Hna adjustment).
  - apply Hsame; try reflexivity; try assumption; lia.
  - apply Hsame; try reflexivity; try assumption; lia.
Qed.

Lemma adjust_free_cons e tr :
  adjust_free (e :: tr) = true ->
  (forall a, e <> CallAdjustUtc a) /\ adjust_free tr = true.
Proof.
  destruct e; cbn [adjust_free]; intros H; try discriminate;
    (split; [intros a'; discriminate | exact H]).
Qed.

Lemma utc_readings_bounded tr : forall m,
  initialized (clk m) = true ->
  utc_set (clk m) = true ->
  TIM.ok (tim m) ->
  0 <= utc_correction_usec_per_overflow (clk m) <= MaxUtcSpeedCorrection ->
  0 <= time_utc (clk m) ->
  adjust_free tr = true ->
  valid tr m = true ->
  time_utc (clk m)
  + (USecPerOverflow + MaxUtcSpeedCorrection) * (Z.of_nat (irq_count tr) + 2)
  <= 2 ^ 64 ->
  Forall (fun o => utc_now m <= o) (utc_readings tr m)
  /\ Sorted Z.le (utc_readings tr m).
Proof.
  induction tr as [|e tr IH]; intros m Hi Hs Hok Hc H0 Hf Hv Hb.
  - cbn. split; constructor.
  - cbn [valid] in Hv. apply andb_true_iff in Hv. destruct Hv as [Hal Hv].
    destruct (adjust_free_cons e tr Hf) as [Hna Hf'].
    rewrite irq_count_cons, Nat2Z.inj_add in Hb.
    assert (Hpos : 0 <= Z.of_nat (irq_count tr)) by lia.
    assert (Hpos' : 0 <= Z.of_nat (irq_count [e])) by lia.
    destruct (@utc_exec_step e m Hi Hs Hok Hc H0 Hna Hal)
      as (Hi' & Hs' & Hok' & Hc' & Htu & Hnow).
    { unfold USecPerOverflow, MaxUtcSpeedCorrection in *. lia. }
    destruct (IH (exec e m) Hi' Hs' Hok') as [Hall Hsrt]; try assumption.
    { rewrite Hc'. exact Hc. }
    { lia. }
    { unfold USecPerOverflow, MaxUtcSpeedCorrection in *. lia. }
    assert (Hall' : Forall (fun o => utc_now m <= o)
                           (utc_readings tr (exec e m))).
    { eapply Forall_impl; [|exact Hall]. cbv beta. intros; lia. }
    assert (Hb2 : time_utc (clk m) + 2 * USecPerOverflow <= 2 ^ 64).
    { unfold USecPerOverflow, MaxUtcSpeedCorrection in *. lia. }
    destruct e; cbn [utc_readings]; try (split; assumption).
    + (* getUtc *)
      cbn [allowed] in Hal. apply andb_true_iff in Hal.
      destruct Hal as [_ Hal]. rewrite Hs in Hal.
      destruct (@getUtc_between d m Hs Hok Hal H0 Hb2) as (E & Hbt & E' & _).
      cbn [exec] in *. rewrite E' in Hall, Hall', Hsrt. rewrite E, E'.
      split.
      * constructor; [lia | assumption].
      * constructor; [assumption|].
        destruct (utc_readings tr (snd (getUtcUSecFromCanInterrupt d m)))
          as [|o os]; constructor.
        inversion Hall; subst. lia.
    + (* getUtcUSecFromCanInterrupt *)
      cbn [allowed] in Hal. apply andb_true_iff in Hal.
      destruct Hal as [_ Hal]. rewrite Hs in Hal.
      destruct (@getUtc_between d m Hs Hok Hal H0 Hb2) as (_ & Hbt & _).
      cbn [exec] in *.
      split.
      * constructor; [lia | assumption].
      * constructor; [assumption|].
        destruct (utc_readings tr (snd (getUtcUSecFromCanInterrupt d m)))
          as [|o os]; constructor.
        inversion Hall; subst. lia.
Qed.

(** X16. Between adjustments, a synchronized clock whose speed correction
    is not negative never reads backward: along every run without a call of
    [adjustUtc] in which each wrap is served before the next one, the values
    returned by [getUtc] and [getUtcUSecFromCanInterrupt] are non-decreasing
    in call order. *)
Theorem utc_readings_nondecreasing tr m :
  initialized (clk m) = true ->
  utc_set (clk m) = true ->
  TIM.ok (tim m) ->
  0 <= utc_correction_usec_per_overflow (clk m) <= MaxUtcSpeedCorrection ->
  0 <= time_utc (clk m) ->
  adjust_free tr = true ->
  valid tr m = true ->
  time_utc (clk m)
  + (USecPerOverflow + MaxUtcSpeedCorrection) * (Z.of_nat (irq_count tr) + 2)
  <= 2 ^ 64 ->
  StronglySorted Z.le (utc_readings tr m).
Proof.
  intros Hi Hs Hok Hc H0 Hf Hv Hb.
  apply Sorted_StronglySorted.
  - intros x y z. apply Z.le_trans.
  - now apply (utc_readings_bounded tr).
Qed.

Lemma utc_readings_nondecreasing_witness :
  StronglySorted Z.le
    (utc_readings [CallGetUtc no_latency; Irq; CallGetUtcUSecFromCanInterrupt
                     (mkLatency 1 0 0); Tick; CallGetUtc no_latency]
                  synced_pending).
Proof.
  refine (@utc_readings_nondecreasing
            [CallGetUtc no_latency; Irq; CallGetUtcUSecFromCanInterrupt
               (mkLatency 1 0 0); Tick; CallGetUtc no_latency]
            synced_pending eq_refl eq_refl _ _ _ eq_refl _ _).
  - unfold TIM.ok. cbn. lia.
  - unfold MaxUtcSpeedCorrection. cbn. lia.
  - cbn. lia.
  - vm_compute. reflexivity.
  - cbn. lia.
Defined.

Lemma run_time_mono_witness :
  time_mono (clk (run race_trace near_wrap)) = 0 + 65536 * 1.
Proof.
  refine (@run_time_mono race_trace near_wrap _ _ _).
  - unfold running, TIM.ok. cbn. repeat split; lia.
  - vm_compute. reflexivity.
  - cbn. lia.
Defined.

Lemma getMonotonic_selftest_passes_witness :
  getMonotonic_selftest 0 (monotonic_readings race_trace near_wrap) = true.
Proof.
  refine (@getMonotonic_selftest_passes race_trace near_wrap _ _ _).
  - unfold running, TIM.ok. cbn. repeat split; lia.
  - vm_compute. reflexivity.
  - cbn. lia.
Defined.
